(** * dir/dircache/proxied.go: the proxied-directory watch coordinator

    A shallow embedding of [proxiedDirs] (the registry of per-user records)
    and of [proxiedDir.watcher], [proxiedDir.watch] and
    [proxiedDir.handleEvent] (the background subscription of one user),
    followed by the properties of the specification that they decide.

    Go values are rendered as follows.
    - [int64] and [time.Duration] are [Z]; the only arithmetic of the file,
      [d.retryInterval *= 2], is written with its two's-complement wrap.
    - [upspin.PathName] and [upspin.UserName] are strings.
    - [map[upspin.UserName]*proxiedDir] is a [gmap]; a record is reached
      through its user name, which plays the part of the pointer.
    - A channel is a number; closing it adds it to the set of closed
      channels of the world.
    - The packages the file imports ([path], [access], the [clog] that
      holds the LRU and the change log) are not part of the files under
      verification: they are taken as an interface, [Collaborators], and
      every theorem holds for every implementation of it. *)

From Stdlib Require Import ZArith Lia List Bool Ascii.
From stdpp Require Import base gmap strings list fin_maps.

Local Open Scope Z_scope.

(** ** Data model *)

Definition PathName := string.
Definition UserName := string.

(** [upspin.Endpoint] is compared with [!=] and otherwise only passed on. *)
Definition Endpoint := string.

(** Identity of a channel made by [make(chan bool)]. *)
Definition chan := nat.

(** An [error] value.  [upspin.ErrNotSupported] is a distinguished value that
    the code recognises with [==]; every other error is known to this file
    through its message only ([err.Error()]). *)
Inductive error : Type :=
  | ErrNotSupported
  | ErrMsg (msg : string).

#[global] Instance error_eq_dec : EqDecision error.
Proof. solve_decision. Defined.

(** The fields of [upspin.DirEntry] that the file reads. *)
Record DirEntry : Type := mkDirEntry { Name : PathName }.

(** [upspin.Event]. *)
Record Event : Type := mkEvent {
  Entry : DirEntry;
  Order : Z;
  Delete : bool;
  Error : option error
}.

(** [lruKey], the key of the LRU. *)
Record lruKey : Type := mkLruKey { name : PathName; glob : bool }.

(** The two request kinds that [handleEvent] logs. *)
Inductive request : Type := lookupReq | deleteReq.

(** [proxiedDir].  The field [l *clog] points to the one [clog] shared by
    the registry and all records; the shared [clog] is threaded separately. *)
Record proxiedDir : Type := mkProxiedDir {
  atime : Z;
  user : UserName;
  order : Z;
  ep : Endpoint;
  die : option chan;
  dying : option chan;
  retryInterval : Z
}.

Definition set_atime (t : Z) (d : proxiedDir) : proxiedDir :=
  mkProxiedDir t (user d) (order d) (ep d) (die d) (dying d) (retryInterval d).
Definition set_order (o : Z) (d : proxiedDir) : proxiedDir :=
  mkProxiedDir (atime d) (user d) o (ep d) (die d) (dying d) (retryInterval d).
Definition set_ep (e : Endpoint) (d : proxiedDir) : proxiedDir :=
  mkProxiedDir (atime d) (user d) (order d) e (die d) (dying d) (retryInterval d).
Definition set_die (c : option chan) (d : proxiedDir) : proxiedDir :=
  mkProxiedDir (atime d) (user d) (order d) (ep d) c (dying d) (retryInterval d).
Definition set_dying (c : option chan) (d : proxiedDir) : proxiedDir :=
  mkProxiedDir (atime d) (user d) (order d) (ep d) (die d) c (retryInterval d).
Definition set_retryInterval (r : Z) (d : proxiedDir) : proxiedDir :=
  mkProxiedDir (atime d) (user d) (order d) (ep d) (die d) (dying d) r.

(** The zero value of the struct, as [&proxiedDir{...}] starts from. *)
Definition zeroDir (u : UserName) : proxiedDir :=
  mkProxiedDir 0 u 0 "" None None 0.

(** ** Collaborators

    What [proxied.go] calls in other packages and in [clog]. *)
Class Collaborators : Type := {
  (** [path.Parse(name)] followed by [parsed.User()]; [None] is the error. *)
  Parse : PathName -> option UserName;
  (** [path.DropPath(name, n)]. *)
  DropPath : PathName -> nat -> PathName;
  (** [access.IsAccessFile(name)]. *)
  IsAccessFile : PathName -> bool;
  (** The state behind [*clog]: the LRU and the change log. *)
  clog : Type;
  (** [l.lru.Get(k)], its second result. *)
  lruGet : lruKey -> clog -> bool;
  (** [l.wipeLog(user)]. *)
  wipeLog : UserName -> clog -> clog;
  (** [l.logRequestWithOrder(op, name, nil, entry, order)]. *)
  logRequestWithOrder : request -> PathName -> DirEntry -> Z -> clog -> clog;
  (** [l.flush()]. *)
  flush : clog -> clog
}.

(** ** Time *)

Definition Second : Z := 1000000000.
Definition Minute : Z := 60 * Second.

Definition initialRetryInterval : Z := 10 * Second.
Definition maxRetryInterval : Z := Minute.

(** Two's-complement reduction of an [int64] result. *)
Definition wrap64 (z : Z) : Z := (z + 2 ^ 63) mod 2 ^ 64 - 2 ^ 63.

(** ** strings.Contains *)

Fixpoint hasPrefix (s pre : string) : bool :=
  match pre, s with
  | EmptyString, _ => true
  | String _ _, EmptyString => false
  | String a pre', String b s' => if Ascii.eqb a b then hasPrefix s' pre' else false
  end.

Fixpoint Contains (s substr : string) : bool :=
  hasPrefix s substr ||
  match s with
  | EmptyString => false
  | String _ s' => Contains s' substr
  end.

(** ** The watcher side: state and observable actions

    What one watcher goroutine does to the outside, in program order. *)
Inductive action : Type :=
  | ABind (e : Endpoint)                (* bind.DirServer(d.l.cfg, ep) *)
  | AMakeDone                           (* done := make(chan struct{}) *)
  | ACloseDone                          (* the deferred close(done) *)
  | AWatch (root : PathName) (o : Z)    (* dir.Watch(user+"/", d.order, done) *)
  | ASleep (dur : Z)                    (* time.Sleep(d.retryInterval) *)
  | ACloseDying                         (* the deferred close(d.dying) *)
  | AWipeLog (u : UserName)             (* d.l.wipeLog(d.user) *)
  | ALogRequest (op : request) (n : PathName) (en : DirEntry) (o : Z)
  | AFlush.                             (* d.l.flush() *)

#[global] Instance request_eq_dec : EqDecision request.
Proof. solve_decision. Defined.
#[global] Instance DirEntry_eq_dec : EqDecision DirEntry.
Proof. solve_decision. Defined.
#[global] Instance action_eq_dec : EqDecision action.
Proof. solve_decision. Defined.

Section Watcher.
Context {C : Collaborators}.

(** The record the goroutine works on, the shared [clog], and what the
    goroutine has done so far (oldest action first). *)
Record wstate : Type := mkW {
  wdir : proxiedDir;
  wlog : clog;
  wtrace : list action
}.

Definition emit (a : action) (s : wstate) : wstate :=
  mkW (wdir s) (wlog s) (wtrace s ++ [a]).
Definition onDir (f : proxiedDir -> proxiedDir) (s : wstate) : wstate :=
  mkW (f (wdir s)) (wlog s) (wtrace s).
Definition onLog (f : clog -> clog) (s : wstate) : wstate :=
  mkW (wdir s) (f (wlog s)) (wtrace s).

(** *** handleEvent *)

(** Lines 227-230: [if d.order == -1 { d.l.wipeLog(d.user) }]. *)
Definition wipeIfRereading (s : wstate) : wstate :=
  if order (wdir s) =? -1
  then emit (AWipeLog (user (wdir s))) (onLog (wipeLog (user (wdir s))) s)
  else s.

(** Lines 250-258, the part after "This is an event we care about". *)
Definition applyEvent (e : Event) (s : wstate) : wstate :=
  let s1 := onDir (set_order (Order e)) s in
  let op := if Delete e then deleteReq else lookupReq in
  let s2 := emit (ALogRequest op (Name (Entry e)) (Entry e) (Order e))
              (onLog (logRequestWithOrder op (Name (Entry e)) (Entry e) (Order e)) s1) in
  emit AFlush (onLog flush s2).

Definition handleEvent (e : Event) (s : wstate) : option error * wstate :=
  match Error e with
  | Some err => (Some err, s)
  | None =>
    let s1 := wipeIfRereading s in
    let n := Name (Entry e) in
    if negb (IsAccessFile n) then
      if negb (lruGet (mkLruKey n false) (wlog s1)) then
        let dirName := DropPath n 1 in
        if String.eqb dirName n then (None, s1)
        else if negb (lruGet (mkLruKey dirName true) (wlog s1)) then (None, s1)
        else (None, applyEvent e s1)
      else (None, applyEvent e s1)
    else (None, applyEvent e s1)
  end.

(** *** watch *)

(** Which case of the [select] in [watch] fires.  [DieFired] can only be
    taken when [d.die] is closed. *)
Inductive ready : Type :=
  | DieFired
  | Received (e : Event)
  | StreamClosed.

(** What the outside does to one call of [watch]: the result of
    [bind.DirServer], the result of [dir.Watch], and the successive
    outcomes of the [select]. *)
Record session : Type := mkSession {
  bindErr : option error;
  watchErr : option error;
  selects : list ready
}.

(** A call either returns an [error] ([None] is [nil]) or stays in the
    [select] with no case ready. *)
Inductive watchResult : Type :=
  | Ret (err : option error)
  | Parked.

Definition streamClosedErr : error := ErrMsg "Watch event stream closed".

(** The [for { select { ... } }] of [watch]. [dieClosed] tells whether
    [d.die] is closed. When the outcomes run out, the event channel has
    nothing to deliver: the [select] takes [<-d.die] if that is closed and
    waits otherwise. *)
Fixpoint pump (dieClosed : bool) (rs : list ready) (s : wstate)
  : watchResult * wstate :=
  match rs with
  | [] => if dieClosed then (Ret None, s) else (Parked, s)
  | DieFired :: _ => if dieClosed then (Ret None, s) else (Parked, s)
  | StreamClosed :: _ => (Ret (Some streamClosedErr), s)
  | Received e :: rs' =>
    match handleEvent e s with
    | (Some err, s') => (Ret (Some err), s')
    | (None, s') => pump dieClosed rs' s'
    end
  end.

Definition watch (dieClosed : bool) (ep0 : Endpoint) (ss : session) (s : wstate)
  : watchResult * wstate :=
  let s1 := emit (ABind ep0) s in
  match bindErr ss with
  | Some err => (Ret (Some err), s1)
  | None =>
    let s2 := emit AMakeDone s1 in
    let s3 := emit (AWatch (user (wdir s2) +:+ "/") (order (wdir s2))) s2 in
    let '(r, s4) :=
      match watchErr ss with
      | Some err => (Ret (Some err), s3)
      | None =>
        (* If Watch succeeds, go back to the initial interval. *)
        let s3' := onDir (set_retryInterval initialRetryInterval) s3 in
        pump dieClosed (selects ss) s3'
      end in
    match r with
    | Ret _ => (r, emit ACloseDone s4)
    | Parked => (r, s4)
    end
  end.

(** *** watcher *)

(** How far the goroutine got on the sessions it was given. *)
Inductive outcome : Type :=
  | Exited      (* watcher returned *)
  | Looping     (* still in the for loop: about to call watch again *)
  | Waiting.    (* inside watch, in a select with no case ready *)

(** Lines 174-184: what follows a session that failed with [msg]. *)
Definition afterFailure (msg : string) (s : wstate) : wstate :=
  let s1 := if Contains msg "cannot read log at order"
            then onDir (set_order (-1)) s else s in
  let s2 := emit (ASleep (retryInterval (wdir s1))) s1 in
  let s3 := onDir (set_retryInterval (wrap64 (retryInterval (wdir s2) * 2))) s2 in
  if retryInterval (wdir s3) >? maxRetryInterval
  then onDir (set_retryInterval maxRetryInterval) s3
  else s3.

(** The [for] loop of [watcher], one session per iteration. *)
Fixpoint loop (dieClosed : bool) (ep0 : Endpoint) (sessions : list session)
  (s : wstate) : outcome * wstate :=
  match sessions with
  | [] => (Looping, s)
  | ss :: rest =>
    match watch dieClosed ep0 ss s with
    | (Parked, s1) => (Waiting, s1)
    | (Ret None, s1) => (Exited, s1)
    | (Ret (Some ErrNotSupported), s1) => (Exited, s1)
    | (Ret (Some (ErrMsg msg)), s1) => loop dieClosed ep0 rest (afterFailure msg s1)
    end
  end.

(** Lines 156-160, before the loop. *)
Definition enter (s : wstate) : wstate :=
  let s1 := if order (wdir s) =? 0 then onDir (set_order (-1)) s else s in
  onDir (set_retryInterval initialRetryInterval) s1.

(** [watcher]: the deferred [close(d.dying)] runs when the function returns. *)
Definition watcher (dieClosed : bool) (ep0 : Endpoint) (sessions : list session)
  (s : wstate) : outcome * wstate :=
  match loop dieClosed ep0 sessions (enter s) with
  | (Exited, s') => (Exited, emit ACloseDying s')
  | r => r
  end.

(** *** Vocabulary of the properties about the event filter *)

(** The test of lines 235-248 as one Boolean: [true] when control reaches
    line 250, "This is an event we care about". *)
Definition watched (e : Event) (l : clog) : bool :=
  let n := Name (Entry e) in
  IsAccessFile n
  || lruGet (mkLruKey n false) l
  || (negb (String.eqb (DropPath n 1) n) && lruGet (mkLruKey (DropPath n 1) true) l).

(** The relevance rule in the words of section 4.B of the specification:
    an access file, or an exact entry, or a glob entry for the one-level
    parent. *)
Definition relevantSpec (e : Event) (l : clog) : bool :=
  let n := Name (Entry e) in
  IsAccessFile n
  || lruGet (mkLruKey n false) l
  || lruGet (mkLruKey (DropPath n 1) true) l.

(** [handleEvent] went on to line 250 and below. *)
Definition treatedAsRelevant (e : Event) (s : wstate) : Prop :=
  (handleEvent e s).2 = applyEvent e (wipeIfRereading s).

(** The state after the filter has handled the events of [es] in turn. *)
Definition feed (es : list Event) (s : wstate) : wstate :=
  fold_left (λ s' e, (handleEvent e s').2) es s.

(** Every event of [es] is dropped by the filter when its turn comes. *)
Fixpoint ignoredAll (es : list Event) (s : wstate) : bool :=
  match es with
  | [] => true
  | e :: es' =>
    negb (watched e (wlog (wipeIfRereading s))) && ignoredAll es' (handleEvent e s).2
  end.

Definition isWipe (a : action) : bool :=
  match a with AWipeLog _ => true | _ => false end.
Definition isLogRequest (a : action) : bool :=
  match a with ALogRequest _ _ _ _ => true | _ => false end.
Definition isFlush (a : action) : bool :=
  match a with AFlush => true | _ => false end.

(** The state of [watch] once [bind.DirServer] and [dir.Watch] have both
    succeeded (lines 191-203). *)
Definition subscribed (ep0 : Endpoint) (s : wstate) : wstate :=
  let s2 := emit AMakeDone (emit (ABind ep0) s) in
  onDir (set_retryInterval initialRetryInterval)
    (emit (AWatch (user (wdir s2) +:+ "/") (order (wdir s2))) s2).

(** How many times the trace calls [wipeLog]. *)
Definition wipes (tr : list action) : nat := length (filter isWipe tr).

(** The durations of the sleeps of a trace, in order. *)
Definition sleeps (tr : list action) : list Z :=
  omap (λ a, match a with ASleep d => Some d | _ => None end) tr.

(** The cursors passed to [dir.Watch], in order. *)
Definition watchOrders (tr : list action) : list Z :=
  omap (λ a, match a with AWatch _ o => Some o | _ => None end) tr.

(** *** Vocabulary of the properties about the retry loop *)

(** The [k]-th term of 10 s, 20 s, 40 s, 60 s, 60 s, ... *)
Definition backoff (k : nat) : Z :=
  Z.min (initialRetryInterval * 2 ^ Z.of_nat k) maxRetryInterval.

(** The message with which a session fails before its subscription is
    established: [bind.DirServer] or [dir.Watch] returns an error other than
    [upspin.ErrNotSupported]. *)
Definition earlyFailure (ss : session) : option string :=
  match bindErr ss with
  | Some (ErrMsg msg) => Some msg
  | Some ErrNotSupported => None
  | None =>
    match watchErr ss with
    | Some (ErrMsg msg) => Some msg
    | _ => None
    end
  end.

(** [bind.DirServer] and [dir.Watch] both succeeded. *)
Definition established (ss : session) : bool :=
  match bindErr ss, watchErr ss with
  | None, None => true
  | _, _ => false
  end.

(** A session in which [bind.DirServer] fails with [msg]. *)
Definition bindFails (msg : string) : session :=
  mkSession (Some (ErrMsg msg)) None [].

(** The time spent in [time.Sleep] by a trace. *)
Definition totalSlept (tr : list action) : Z :=
  foldr Z.add 0 (sleeps tr).

End Watcher.

(** ** The registry side

    The operations of [proxiedDirs] run under its mutex, so each call is one
    atomic step of the world below. The world also holds what the calls
    touch outside the map: the channels made so far, the closed ones, and the
    watcher goroutines that have been started and have not returned. *)

(** What happens in the world, in order. *)
Inductive occurrence : Type :=
  | RLogInfo (n : PathName)      (* log.Info.Printf("parse error on a cleaned name: %s", name) *)
  | RCloseDie (c : chan)         (* close(d.die) *)
  | RWatcherExit (c : chan)      (* a watcher returns: its deferred close(d.dying) *)
  | RRecvDying (c : chan)        (* <-d.dying completes *)
  | RGo (u : UserName) (e : Endpoint) (cdie cdying : chan).   (* go d.watcher(ep) *)

(** [proxiedDirs] without its mutex and its [clog] pointer. *)
Record proxiedDirs : Type := mkDirs {
  closing : bool;
  m : gmap UserName proxiedDir
}.

(** A running [d.watcher(ep)]: the record it works on (by user), its
    argument, and the two channels of the record at the time it was started.
    The registry replaces the channels of a record only after [d.close()]
    has returned, that is after this goroutine has closed [g_dying]. *)
Record goroutine : Type := mkG {
  g_user : UserName;
  g_ep : Endpoint;
  g_die : chan;
  g_dying : chan
}.

Record world : Type := mkWorld {
  p : proxiedDirs;
  nextChan : chan;               (* the next channel that make returns *)
  closedChans : list chan;
  watchers : list goroutine;
  hist : list occurrence         (* oldest first *)
}.

(** [newProxiedDirs]: an empty map, nothing started. *)
Definition newProxiedDirs : world :=
  mkWorld (mkDirs false ∅) 0%nat [] [] [].

Definition record (o : occurrence) (w : world) : world :=
  mkWorld (p w) (nextChan w) (closedChans w) (watchers w) (hist w ++ [o]).
Definition closeChan (c : chan) (w : world) : world :=
  mkWorld (p w) (nextChan w) (c :: closedChans w) (watchers w) (hist w).
Definition store (u : UserName) (d : proxiedDir) (w : world) : world :=
  mkWorld (mkDirs (closing (p w)) (<[u := d]> (m (p w))))
          (nextChan w) (closedChans w) (watchers w) (hist w).
Definition setClosing (w : world) : world :=
  mkWorld (mkDirs true (m (p w)))
          (nextChan w) (closedChans w) (watchers w) (hist w).

Definition isClosed (c : chan) (w : world) : bool :=
  bool_decide (c ∈ closedChans w).
Definition holds (c : chan) (g : goroutine) : bool :=
  bool_decide (g_dying g = c).

(** The goroutine that owns [c] as its [dying] channel returns. *)
Definition retire (c : chan) (w : world) : world :=
  record (RWatcherExit c)
    (mkWorld (p w) (nextChan w) (c :: closedChans w)
             (filter (λ g, negb (holds c g)) (watchers w)) (hist w)).

(** [proxiedDir.close].  [None] means that the call does not return: it
    waits on [<-d.dying] for ever, or [close] panics on a closed channel.
    [exits] tells whether the watcher of the record, once its [die] is
    closed, ever returns. What that watcher wrote into [order] and
    [retryInterval] of the record before it returned is not carried over: the
    record comes back with the two fields as the registry last wrote them. *)
Definition closeDir (exits : bool) (d : proxiedDir) (w : world)
  : option (proxiedDir * world) :=
  match die d with
  | None => Some (d, w)
  | Some c =>
    if isClosed c w then None
    else
      let w1 := record (RCloseDie c) (closeChan c w) in
      match dying d with
      | None => None                      (* receiving from a nil channel *)
      | Some y =>
        if isClosed y w1
        then Some (set_die None d, record (RRecvDying y) w1)
        else if exits && existsb (holds y) (watchers w1)
        then Some (set_die None d, record (RRecvDying y) (retire y w1))
        else None
      end
  end.

Section Registry.
Context {C : Collaborators}.

(** [go d.watcher] on a copy of the endpoint, after the two [make(chan bool)]. *)
Definition startWatcher (u : UserName) (ep0 : Endpoint) (d : proxiedDir) (w : world)
  : proxiedDir * world :=
  let c1 := nextChan w in
  let c2 := S (nextChan w) in
  let d' := set_dying (Some c2) (set_die (Some c1) d) in
  (d', record (RGo u ep0 c1 c2)
         (mkWorld (p w) (S (S (nextChan w))) (closedChans w)
                  (watchers w ++ [mkG u ep0 c1 c2]) (hist w))).

Definition proxyFor (exits : bool) (n : PathName) (ep0 : Endpoint) (now : Z)
  (w : world) : option world :=
  if closing (p w) then Some w
  else
    match Parse n with
    | None => Some (record (RLogInfo n) w)
    | Some u =>
      (* If the endpoint changed, kill off the current watcher. *)
      let killed :=
        match m (p w) !! u with
        | Some d =>
          if bool_decide (ep d ≠ ep0)
          then match closeDir exits d w with
               | Some (d1, w1) => Some (set_ep ep0 d1, w1)
               | None => None
               end
          else Some (d, w)
        | None => Some (set_ep ep0 (zeroDir u), w)
        end in
      match killed with
      | None => None
      | Some (d, w1) =>
        let d2 := set_atime now d in
        (* Start a watcher if none is running. *)
        match die d2 with
        | None => let '(d3, w2) := startWatcher u ep0 d2 w1 in Some (store u d3 w2)
        | Some _ => Some (store u d2 w1)
        end
      end
    end.

Definition setOrder (n : PathName) (o : Z) (w : world) : world :=
  if closing (p w) then w
  else
    match Parse n with
    | None => record (RLogInfo n) w
    | Some u =>
      let d := default (zeroDir u) (m (p w) !! u) in
      store u (set_order o d) w
    end.

(** The loop of [proxiedDirs.close] over the records. *)
Fixpoint closeAll (exits : UserName -> bool) (us : list UserName) (w : world)
  : option world :=
  match us with
  | [] => Some w
  | u :: us' =>
    match m (p w) !! u with
    | None => closeAll exits us' w
    | Some d =>
      match closeDir (exits u) d w with
      | None => None
      | Some (d', w') => closeAll exits us' (store u d' w')
      end
    end
  end.

(** [proxiedDirs.close].  Go visits the map in an unspecified order; the
    model takes the order of [map_to_list]. *)
Definition close (exits : UserName -> bool) (w : world) : option world :=
  if closing (p w) then Some w
  else closeAll exits ((map_to_list (m (p w))).*1) (setClosing w).

(** A watcher that returns by itself (its session ended with
    [upspin.ErrNotSupported]). *)
Definition watcherReturns (c : chan) (w : world) : world :=
  if existsb (holds c) (watchers w) then retire c w else w.

(** The steps of the world. *)
Inductive op : Type :=
  | OProxyFor (exits : bool) (n : PathName) (ep0 : Endpoint) (now : Z)
  | OSetOrder (n : PathName) (o : Z)
  | OClose (exits : UserName -> bool)
  | OWatcherReturns (c : chan).

Definition step (o : op) (w : world) : option world :=
  match o with
  | OProxyFor exits n ep0 now => proxyFor exits n ep0 now w
  | OSetOrder n o => Some (setOrder n o w)
  | OClose exits => close exits w
  | OWatcherReturns c => Some (watcherReturns c w)
  end.

Fixpoint run (ops : list op) (w : world) : option world :=
  match ops with
  | [] => Some w
  | o :: ops' =>
    match step o w with
    | Some w' => run ops' w'
    | None => None
    end
  end.

(** *** Vocabulary of the properties about the registry *)

(** The last lines of [proxyFor], from [d.atime = time.Now()] on. *)
Definition touch (u : UserName) (ep0 : Endpoint) (now : Z) (d : proxiedDir)
  (w : world) : world :=
  match die (set_atime now d) with
  | None => store u (startWatcher u ep0 (set_atime now d) w).1
              (startWatcher u ep0 (set_atime now d) w).2
  | Some _ => store u (set_atime now d) w
  end.


(** The running watchers of a user. *)
Definition watchersOf (u : UserName) (w : world) : list goroutine :=
  filter (λ g, g_user g = u) (watchers w).

(** The worlds that a registry made by [newProxiedDirs] can be in. *)
Definition reachable (w : world) : Prop :=
  ∃ ops, run ops newProxiedDirs = Some w.

(** The channels of a record were made before [nx]; [make] hands out the
    even numbers as [die] and the odd ones as [dying]. *)
Definition okRecord (nx : chan) (d : proxiedDir) : Prop :=
  (∀ c, die d = Some c -> (c < nx)%nat ∧ Nat.even c = true)
  ∧ (∀ y, dying d = Some y -> (y < nx)%nat ∧ Nat.even y = false).

(** What every reachable world satisfies. *)
Record Inv (w : world) : Prop := mkInv {
  inv_nodup : NoDup (g_user <$> watchers w);
  inv_rec : ∀ g, g ∈ watchers w ->
      (∃ d, m (p w) !! g_user g = Some d
            ∧ die d = Some (g_die g) ∧ dying d = Some (g_dying g))
      ∧ g_dying g ∉ closedChans w;
  inv_closed : ∀ c, c ∈ closedChans w -> (c < nextChan w)%nat;
  inv_ok : ∀ u d, m (p w) !! u = Some d -> okRecord (nextChan w) d;
  inv_next : Nat.even (nextChan w) = true
}.

End Registry.

(** ** One implementation of the collaborators

    Used to run the model on concrete inputs. *)
Module Sample.

Fixpoint slashes (s : string) (i : nat) : list nat :=
  match s with
  | EmptyString => []
  | String a s' =>
    if Ascii.eqb a "/"%char then i :: slashes s' (S i) else slashes s' (S i)
  end.

(** The text before the first slash. *)
Definition userOf (n : PathName) : UserName :=
  match slashes n 0 with
  | [] => n
  | i :: _ => String.substring 0 i n
  end.

(** Modelled from the spec: the path parser of section 6,
    [parse(path) → {user, …} | error], of which the code under verification
    uses the user only. A name is [user@domain/elem/...]; a name without
    [@] in its user part is a parse error. *)
Definition parse (n : PathName) : option UserName :=
  if Contains (userOf n) "@" then Some (userOf n) else None.

(** Modelled from the spec: [parent(name)] of section 4.B, the one-level
    parent obtained by dropping the last element of [user@domain/a/b]. The
    root [user@domain/] has no element to drop and is returned as it is,
    which is the case that line 240 of [handleEvent] tests for. *)
Definition dropLast (n : PathName) : PathName :=
  match slashes n 0 with
  | [] => n
  | [i] => String.substring 0 (S i) n
  | l => String.substring 0 (List.last l 0%nat) n
  end.

Definition dropPath (n : PathName) (k : nat) : PathName :=
  Nat.iter k dropLast n.

(** Modelled from the spec: the access-file classifier of section 6; an
    access-control file is a file called [Access]. *)
Definition isAccessFile (n : PathName) : bool :=
  hasPrefix (String.rev n) (String.rev "/Access").

#[global] Instance lruKey_eq_dec : EqDecision lruKey.
Proof. solve_decision. Defined.

(** Modelled from the spec: the cache store and the change log of section 6.
    The cache is the list of its keys; the change log is the list of appended
    requests and the number of them that a flush has made durable. *)
Record store : Type := mkStore {
  cache : list lruKey;
  changes : list (request * PathName * Z);
  flushed : nat
}.

Definition get (k : lruKey) (l : store) : bool :=
  bool_decide (k ∈ cache l).

(** Modelled from the spec: "wipe all entries for this user". *)
Definition wipe (u : UserName) (l : store) : store :=
  mkStore (filter (λ k, negb (String.eqb (userOf (name k)) u)) (cache l))
          (filter (λ c, negb (String.eqb (userOf (c.1.2)) u)) (changes l))
          0.

(** Modelled from the spec: "emit a cache mutation — [delete] if
    [e.deleteFlag], otherwise upsert — tagged with the event's cursor". *)
Definition append (op : request) (n : PathName) (en : DirEntry) (o : Z)
  (l : store) : store :=
  let k := mkLruKey n false in
  let rest := filter (λ k', negb (bool_decide (k' = k))) (cache l) in
  mkStore (match op with lookupReq => k :: rest | deleteReq => rest end)
          (changes l ++ [(op, n, o)])
          (flushed l).

Definition sync (l : store) : store :=
  mkStore (cache l) (changes l) (length (changes l)).

#[global] Instance collaborators : Collaborators :=
  {| Parse := parse;
     DropPath := dropPath;
     IsAccessFile := isAccessFile;
     clog := store;
     lruGet := get;
     wipeLog := wipe;
     logRequestWithOrder := append;
     flush := sync |}.

(** Inputs for the concrete runs. *)
Definition alice : proxiedDir :=
  mkProxiedDir 0 "alice@x" 5 "E1" (Some 0%nat) (Some 1%nat) initialRetryInterval.

Definition cache0 : store :=
  mkStore [mkLruKey "alice@x/foo" false; mkLruKey "alice@x/dir" true;
           mkLruKey "alice@x/" true] [] 0.

Definition event (n : PathName) (o : Z) (del : bool) : Event :=
  mkEvent (mkDirEntry n) o del None.

End Sample.


(** ** Further vocabulary

    Used by the properties beyond the claims. *)

(** How many actions of a trace satisfy [f]. *)
Definition count (f : action -> bool) (tr : list action) : nat :=
  length (filter f tr).

Definition isBind (a : action) : bool :=
  match a with ABind _ => true | _ => false end.
Definition isMakeDone (a : action) : bool :=
  match a with AMakeDone => true | _ => false end.
Definition isCloseDone (a : action) : bool :=
  match a with ACloseDone => true | _ => false end.
Definition isSleepAction (a : action) : bool :=
  match a with ASleep _ => true | _ => false end.

(** The fields of a record that the registry owns: everything but the
    cursor and the retry interval. *)
Definition sameOwned (d d' : proxiedDir) : Prop :=
  atime d' = atime d ∧ user d' = user d ∧ ep d' = ep d
  ∧ die d' = die d ∧ dying d' = dying d.

(** A duration between the initial and the maximal retry interval. *)
Definition inRange (r : Z) : Prop :=
  initialRetryInterval <= r <= maxRetryInterval.

(** The actions that [handleEvent] performs. *)
Definition isFilterAction (a : action) : bool :=
  match a with
  | AWipeLog _ | ALogRequest _ _ _ _ | AFlush => true
  | _ => false
  end.

Section Balances.
Context {C : Collaborators}.

(** The four balances of a trace against the trace it started from: binds
    against sleeps, [done] made against [done] closed, requests against
    flushes. [open] is 1 when a [done] is still open, [ahead] is 1 when a
    session has been bound that no sleep has followed yet. *)
Definition balanced (s r : wstate) (open ahead : nat) : Prop :=
  (count isLogRequest (wtrace r) + count isFlush (wtrace s)
   = count isLogRequest (wtrace s) + count isFlush (wtrace r))%nat
  ∧ (count isMakeDone (wtrace r) + count isCloseDone (wtrace s)
     = count isMakeDone (wtrace s) + count isCloseDone (wtrace r) + open)%nat
  ∧ (count isBind (wtrace r) + count isSleepAction (wtrace s)
     = count isBind (wtrace s) + count isSleepAction (wtrace r) + ahead)%nat.

End Balances.

(** More of what every reachable world satisfies: a record is filed under
    its own user; a [die] channel that is set is open and comes with a
    [dying] channel that is closed or is the one a running watcher will
    close; and no two records share a channel. *)
Record Inv2 (w : world) : Prop := mkInv2 {
  inv_user : ∀ u d, m (p w) !! u = Some d -> user d = u;
  inv_pair : ∀ u d c, m (p w) !! u = Some d -> die d = Some c ->
      (c ∉ closedChans w)
      ∧ ∃ y, dying d = Some y
             ∧ (y ∈ closedChans w ∨ ∃ g, g ∈ watchers w ∧ g_dying g = y);
  inv_distinct : ∀ u1 u2 d1 d2 c,
      m (p w) !! u1 = Some d1 -> m (p w) !! u2 = Some d2 -> u1 ≠ u2 ->
      (die d1 = Some c -> die d2 ≠ Some c)
      ∧ (dying d1 = Some c -> dying d2 ≠ Some c)
}.

(** No record of a closing registry has a [die] channel. *)
Definition Closed (w : world) : Prop :=
  closing (p w) = true -> ∀ u d, m (p w) !! u = Some d -> die d = None.

(** More inputs for the concrete runs: a registry after one registration,
    after two, and after a registration and a shutdown. *)
Module Runs.

Definition one : list op := [OProxyFor true "alice@x/foo" "E1" 5].
Definition two : list op :=
  [OProxyFor true "alice@x/foo" "E1" 5; OProxyFor true "bob@y/notes" "E2" 6].
Definition shut : list op :=
  [OProxyFor true "alice@x/foo" "E1" 5; OClose (λ _, true)].

Definition after (ops : list op) : world :=
  default newProxiedDirs (run ops newProxiedDirs).

Definition aliceRecord : proxiedDir :=
  mkProxiedDir 5 "alice@x" 0 "E1" (Some 0%nat) (Some 1%nat) 0.

End Runs.

(** *** Vocabulary of the property about the requests for a reread *)

(** The script of the session holds an error, returned by [bind.DirServer]
    or by [dir.Watch] or carried by an event, whose text contains
    "cannot read log at order". *)
Definition scriptsReset (ss : session) : Prop :=
  ∃ msg, Contains msg "cannot read log at order" = true
    ∧ (bindErr ss = Some (ErrMsg msg)
       ∨ watchErr ss = Some (ErrMsg msg)
       ∨ ∃ e, Received e ∈ selects ss ∧ Error e = Some (ErrMsg msg)).

(** The script of the session delivers an event without error whose own
    cursor is -1. *)
Definition deliversSentinel (ss : session) : Prop :=
  ∃ e, Received e ∈ selects ss ∧ Error e = None ∧ Order e = -1.

(** Each [logRequestWithOrder] of the trace is followed at once by a
    [flush], and there is no other [flush]. *)
Fixpoint flushedAtOnce (tr : list action) : bool :=
  match tr with
  | [] => true
  | ALogRequest _ _ _ _ :: tl =>
    match tl with
    | AFlush :: tl' => flushedAtOnce tl'
    | _ => false
    end
  | AFlush :: _ => false
  | _ :: tl => flushedAtOnce tl
  end.
(** * Properties

    Sanity checks of the sample collaborators first. *)

Example sample_parse : Sample.parse "alice@x/foo" = Some "alice@x".
Proof. reflexivity. Qed.
Example sample_parse_err : Sample.parse "foo" = None.
Proof. reflexivity. Qed.
Example sample_drop : Sample.dropPath "alice@x/dir/new" 1 = "alice@x/dir".
Proof. reflexivity. Qed.
Example sample_drop_top : Sample.dropPath "alice@x/foo" 1 = "alice@x/".
Proof. reflexivity. Qed.
Example sample_drop_root : Sample.dropPath "alice@x/" 1 = "alice@x/".
Proof. reflexivity. Qed.
Example sample_access : Sample.isAccessFile "alice@x/Access" = true.
Proof. reflexivity. Qed.
Example sample_access_no : Sample.isAccessFile "alice@x/foo" = false.
Proof. reflexivity. Qed.

(** ** The event filter *)

Section EventFilter.
Context {C : Collaborators}.

Lemma handleEvent_error e s err :
  Error e = Some err -> handleEvent e s = (Some err, s).
Proof. intros H. unfold handleEvent. now rewrite H. Qed.

(** The nested tests of [handleEvent] amount to [watched]. *)
Lemma handleEvent_watched e s :
  Error e = None ->
  handleEvent e s =
    (None, if watched e (wlog (wipeIfRereading s))
           then applyEvent e (wipeIfRereading s)
           else wipeIfRereading s).
Proof.
  intros H. unfold handleEvent, watched. rewrite H. cbv zeta.
  destruct (IsAccessFile (Name (Entry e))); simpl; [reflexivity|].
  destruct (lruGet _ (wlog (wipeIfRereading s))); simpl; [reflexivity|].
  destruct (String.eqb (DropPath (Name (Entry e)) 1) (Name (Entry e))); simpl;
    [reflexivity|].
  destruct (lruGet _ (wlog (wipeIfRereading s))); reflexivity.
Qed.

Lemma wtrace_applyEvent e s :
  wtrace (applyEvent e s) =
    wtrace s ++ [ALogRequest (if Delete e then deleteReq else lookupReq)
                   (Name (Entry e)) (Entry e) (Order e); AFlush].
Proof. unfold applyEvent. simpl. now rewrite <- app_assoc. Qed.

Lemma applyEvent_neq e s : applyEvent e s ≠ s.
Proof.
  intros H. apply (f_equal (λ x, length (wtrace x))) in H.
  rewrite wtrace_applyEvent, length_app in H. simpl in H. lia.
Qed.

Lemma treatedAsRelevant_watched e s :
  Error e = None ->
  treatedAsRelevant e s <-> watched e (wlog (wipeIfRereading s)) = true.
Proof.
  intros H. unfold treatedAsRelevant. rewrite (handleEvent_watched _ _ H). simpl.
  destruct (watched e _); split; intros H'; try reflexivity; try discriminate.
  symmetry in H'. now apply applyEvent_neq in H'.
Qed.

Lemma wipeIfRereading_other s : order (wdir s) ≠ -1 -> wipeIfRereading s = s.
Proof.
  intros H. unfold wipeIfRereading.
  destruct (Z.eqb_spec (order (wdir s)) (-1)); [contradiction|reflexivity].
Qed.

Lemma wipeIfRereading_sentinel s :
  order (wdir s) = -1 ->
  wipeIfRereading s =
    mkW (wdir s) (wipeLog (user (wdir s)) (wlog s))
        (wtrace s ++ [AWipeLog (user (wdir s))]).
Proof. intros H. unfold wipeIfRereading. now rewrite H. Qed.

Lemma wdir_wipeIfRereading s : wdir (wipeIfRereading s) = wdir s.
Proof. unfold wipeIfRereading. now destruct (_ =? _). Qed.

Lemma watched_cases e l :
  watched e l = true <->
  IsAccessFile (Name (Entry e)) = true
  ∨ lruGet (mkLruKey (Name (Entry e)) false) l = true
  ∨ (DropPath (Name (Entry e)) 1 ≠ Name (Entry e)
     ∧ lruGet (mkLruKey (DropPath (Name (Entry e)) 1) true) l = true).
Proof.
  unfold watched. cbv zeta.
  rewrite !orb_true_iff, andb_true_iff, negb_true_iff.
  rewrite <- (not_true_iff_false (String.eqb _ _)), String.eqb_eq. tauto.
Qed.

(** C3, as amended. For an event without error the filter goes on to record
    the event exactly when the name is an access file, or the cache holds
    the exact entry, or dropping one element gives a different name for
    which the cache holds a glob entry (the cache being the one left by the
    wipe that a cursor of -1 triggers). An event that is not recorded leaves
    the record as it is, cursor included, and adds no log request and no
    flush; when the cursor is not -1 it changes nothing at all. *)
Theorem C3_filter_relevance (e : Event) (s : wstate) :
  Error e = None ->
  (treatedAsRelevant e s <->
     IsAccessFile (Name (Entry e)) = true
     ∨ lruGet (mkLruKey (Name (Entry e)) false) (wlog (wipeIfRereading s)) = true
     ∨ (DropPath (Name (Entry e)) 1 ≠ Name (Entry e)
        ∧ lruGet (mkLruKey (DropPath (Name (Entry e)) 1) true)
            (wlog (wipeIfRereading s)) = true))
  ∧ (¬ treatedAsRelevant e s ->
       handleEvent e s = (None, wipeIfRereading s)
       ∧ wdir (handleEvent e s).2 = wdir s
       ∧ filter isLogRequest (wtrace (handleEvent e s).2)
           = filter isLogRequest (wtrace s)
       ∧ filter isFlush (wtrace (handleEvent e s).2) = filter isFlush (wtrace s)
       ∧ (order (wdir s) ≠ -1 -> (handleEvent e s).2 = s)).
Proof.
  intros He. split.
  - rewrite (treatedAsRelevant_watched _ _ He). apply watched_cases.
  - intros Hn. rewrite (treatedAsRelevant_watched _ _ He) in Hn.
    apply not_true_is_false in Hn.
    rewrite (handleEvent_watched _ _ He), Hn. simpl.
    repeat split.
    + apply wdir_wipeIfRereading.
    + unfold wipeIfRereading. destruct (_ =? _); [|reflexivity].
      simpl. rewrite filter_app. simpl. now rewrite app_nil_r.
    + unfold wipeIfRereading. destruct (_ =? _); [|reflexivity].
      simpl. rewrite filter_app. simpl. now rewrite app_nil_r.
    + apply wipeIfRereading_other.
Qed.

End EventFilter.

(** C3 at an event under a cached directory. *)
Lemma C3_filter_relevance_witness :
  let e := Sample.event "alice@x/dir/new" 7 false in
  let s := mkW Sample.alice Sample.cache0 [] in
  Error e = None ∧ treatedAsRelevant e s.
Proof.
  intros e s. split; [reflexivity|].
  apply (proj1 (C3_filter_relevance e s eq_refl)).
  right. right. split; [discriminate | reflexivity].
Defined.

(** C3 as the specification words it fails twice. With the cursor at -1 an
    event that the filter drops has still wiped the cache. And an event for a
    root, whose name [DropPath] returns unchanged, is dropped although the
    cache holds a glob entry under that very name. *)
Lemma C3_counterexample :
  let s := mkW (set_order (-1) Sample.alice) Sample.cache0 [] in
  let e := Sample.event "alice@x/sub/other" 3 false in
  let s' := mkW Sample.alice Sample.cache0 [] in
  let e' := Sample.event "alice@x/" 3 false in
  (Error e = None
   ∧ relevantSpec e (wlog s) = false
   ∧ ¬ treatedAsRelevant e s
   ∧ wlog (handleEvent e s).2 ≠ wlog s)
  ∧ (Error e' = None
     ∧ relevantSpec e' (wlog s') = true
     ∧ ¬ treatedAsRelevant e' s').
Proof.
  intros s e s' e'. repeat split.
  - intros H. apply (treatedAsRelevant_watched e s eq_refl) in H. discriminate H.
  - intros H. vm_compute in H. discriminate H.
  - intros H. apply (treatedAsRelevant_watched e' s' eq_refl) in H. discriminate H.
Qed.

Section EventFilterEffects.
Context {C : Collaborators}.

(** C4. A relevant event sets the cursor of the record to the cursor of
    the event, appends one request to the change log, [deleteReq] when the
    event has its delete flag and [lookupReq] otherwise, with the cursor of
    the event, and flushes the log; the filter then returns nil. *)
Theorem C4_relevant_event_recorded (e : Event) (s : wstate) :
  Error e = None ->
  treatedAsRelevant e s ->
  let op := if Delete e then deleteReq else lookupReq in
  let s1 := wipeIfRereading s in
  (handleEvent e s).1 = None
  ∧ order (wdir (handleEvent e s).2) = Order e
  ∧ wtrace (handleEvent e s).2 =
      wtrace s1 ++ [ALogRequest op (Name (Entry e)) (Entry e) (Order e); AFlush]
  ∧ wlog (handleEvent e s).2 =
      flush (logRequestWithOrder op (Name (Entry e)) (Entry e) (Order e) (wlog s1)).
Proof.
  intros He Hr op s1.
  apply (treatedAsRelevant_watched _ _ He) in Hr.
  rewrite (handleEvent_watched _ _ He), Hr. simpl.
  repeat split. apply wtrace_applyEvent.
Qed.

Lemma pump_received dc e rs s :
  Error e = None -> pump dc (Received e :: rs) s = pump dc rs (handleEvent e s).2.
Proof. intros He. simpl. now rewrite (handleEvent_watched _ _ He). Qed.

Lemma pump_feed dc pre rs s :
  Forall (λ e, Error e = None) pre ->
  pump dc (map Received pre ++ rs) s = pump dc rs (feed pre s).
Proof.
  intros H. revert s. induction H as [|e pre He _ IH]; intros s; [reflexivity|].
  change (map Received (e :: pre) ++ rs) with (Received e :: (map Received pre ++ rs)).
  rewrite (pump_received _ _ _ _ He). apply IH.
Qed.

Lemma watch_subscribed dc ep0 ss s :
  bindErr ss = None -> watchErr ss = None ->
  watch dc ep0 ss s =
    match pump dc (selects ss) (subscribed ep0 s) with
    | (Ret r, s') => (Ret r, emit ACloseDone s')
    | (Parked, s') => (Parked, s')
    end.
Proof.
  intros Hb Hw. unfold watch. rewrite Hb, Hw. fold (subscribed ep0 s).
  destruct (pump dc (selects ss) (subscribed ep0 s)) as [[r|] s']; reflexivity.
Qed.

(** C7. An event that carries an error makes the filter return that error
    with the state untouched: no wipe, no cursor update, no request, no
    flush. The session that receives it, whatever error-free events came
    before, returns that error. *)
Theorem C7_error_event_ends_session (e : Event) (err : error) (s : wstate) :
  Error e = Some err ->
  handleEvent e s = (Some err, s)
  ∧ (∀ dc pre rs s0,
       Forall (λ e', Error e' = None) pre ->
       pump dc (map Received pre ++ Received e :: rs) s0
         = (Ret (Some err), feed pre s0))
  ∧ (∀ dc ep0 ss pre rs s0,
       bindErr ss = None -> watchErr ss = None ->
       selects ss = map Received pre ++ Received e :: rs ->
       Forall (λ e', Error e' = None) pre ->
       watch dc ep0 ss s0
         = (Ret (Some err), emit ACloseDone (feed pre (subscribed ep0 s0)))).
Proof.
  intros He. split; [now apply handleEvent_error|].
  assert (Hp : ∀ dc pre rs s0,
             Forall (λ e', Error e' = None) pre ->
             pump dc (map Received pre ++ Received e :: rs) s0
               = (Ret (Some err), feed pre s0)).
  { intros dc pre rs s0 Hpre. rewrite (pump_feed _ _ _ _ Hpre). simpl.
    now rewrite (handleEvent_error _ _ _ He). }
  split; [exact Hp|].
  intros dc ep0 ss pre rs s0 Hb Hw Hsel Hpre.
  rewrite (watch_subscribed _ _ _ _ Hb Hw), Hsel, (Hp _ _ _ _ Hpre). reflexivity.
Qed.

Lemma wipes_app tr tr' : wipes (tr ++ tr') = (wipes tr + wipes tr')%nat.
Proof. unfold wipes. now rewrite filter_app, length_app. Qed.

Lemma handleEvent_ignored e s :
  Error e = None -> watched e (wlog (wipeIfRereading s)) = false ->
  (handleEvent e s).2 = wipeIfRereading s.
Proof. intros He Hw. now rewrite (handleEvent_watched _ _ He), Hw. Qed.

Lemma feed_ignored es s :
  order (wdir s) = -1 ->
  Forall (λ e, Error e = None) es ->
  ignoredAll es s = true ->
  order (wdir (feed es s)) = -1
  ∧ wipes (wtrace (feed es s)) = (wipes (wtrace s) + length es)%nat.
Proof.
  intros Ho H. revert s Ho. induction H as [|e es He _ IH]; intros s Ho Hi.
  - simpl. split; [exact Ho | lia].
  - simpl in Hi. apply andb_true_iff in Hi as [Hw Hi].
    apply negb_true_iff in Hw.
    pose proof (handleEvent_ignored _ _ He Hw) as Hs.
    change (feed (e :: es) s) with (feed es (handleEvent e s).2).
    rewrite Hs in Hi |- *.
    assert (Ho' : order (wdir (wipeIfRereading s)) = -1)
      by now rewrite wdir_wipeIfRereading.
    destruct (IH _ Ho' Hi) as [IH1 IH2]. split; [exact IH1|].
    rewrite IH2, (wipeIfRereading_sentinel _ Ho). simpl.
    rewrite wipes_app. unfold wipes at 2. simpl. lia.
Qed.

(** C10. While the cursor is -1, every event without error makes the
    filter call [wipeLog] for the user, whether or not the event is then
    recorded; an event that is dropped leaves the cursor at -1, so a run of
    dropped events wipes once per event; a recorded event moves the cursor
    to its own, and with a cursor other than -1 the filter wipes no more. *)
Theorem C10_wipe_on_every_event (s : wstate) :
  order (wdir s) = -1 ->
  (∀ e, Error e = None ->
     (∃ tl, wtrace (handleEvent e s).2
              = wtrace s ++ AWipeLog (user (wdir s)) :: tl)
     ∧ (¬ treatedAsRelevant e s ->
          order (wdir (handleEvent e s).2) = -1
          ∧ wlog (handleEvent e s).2 = wipeLog (user (wdir s)) (wlog s))
     ∧ (treatedAsRelevant e s -> order (wdir (handleEvent e s).2) = Order e))
  ∧ (∀ es, Forall (λ e, Error e = None) es -> ignoredAll es s = true ->
       order (wdir (feed es s)) = -1
       ∧ wipes (wtrace (feed es s)) = (wipes (wtrace s) + length es)%nat)
  ∧ (∀ e s2, Error e = None -> order (wdir s2) ≠ -1 ->
       wipes (wtrace (handleEvent e s2).2) = wipes (wtrace s2)).
Proof.
  intros Ho. split; [|split].
  - intros e He. rewrite (treatedAsRelevant_watched _ _ He).
    rewrite (handleEvent_watched _ _ He).
    rewrite (wipeIfRereading_sentinel _ Ho).
    destruct (watched e _); simpl.
    + split; [|split].
      * eexists. rewrite <- !app_assoc. reflexivity.
      * intros H. now contradiction H.
      * reflexivity.
    + split; [|split].
      * eexists. reflexivity.
      * intros _. split; [exact Ho | reflexivity].
      * discriminate.
  - intros es. now apply feed_ignored.
  - intros e s2 He Hne. rewrite (handleEvent_watched _ _ He).
    rewrite (wipeIfRereading_other _ Hne).
    destruct (watched e _); [|reflexivity].
    cbn [snd]. rewrite wtrace_applyEvent, wipes_app.
    unfold wipes at 2. destruct (Delete e); simpl; lia.
Qed.

End EventFilterEffects.

(** C4 on scenario 4 of the specification: the cache holds
    [alice@x/foo] and the event is a change of that entry at cursor 42. *)
Lemma C4_relevant_event_recorded_witness :
  let e := Sample.event "alice@x/foo" 42 false in
  let s := mkW Sample.alice Sample.cache0 [] in
  Error e = None
  ∧ treatedAsRelevant e s
  ∧ order (wdir (handleEvent e s).2) = 42
  ∧ wtrace (handleEvent e s).2 =
      [ALogRequest lookupReq "alice@x/foo" (mkDirEntry "alice@x/foo") 42; AFlush].
Proof.
  intros e s.
  assert (He : Error e = None) by reflexivity.
  assert (Hr : treatedAsRelevant e s) by (vm_compute; reflexivity).
  destruct (C4_relevant_event_recorded e s He Hr) as (_ & Ho & Ht & _).
  exact (conj He (conj Hr (conj Ho Ht))).
Defined.

(** C7 on a session that receives one good event and then an error. *)
Lemma C7_error_event_ends_session_witness :
  let e := mkEvent (mkDirEntry "") 0 false (Some (ErrMsg "remote failure")) in
  let good := Sample.event "alice@x/foo" 42 false in
  let s := mkW Sample.alice Sample.cache0 [] in
  Error e = Some (ErrMsg "remote failure")
  ∧ handleEvent e s = (Some (ErrMsg "remote failure"), s)
  ∧ (watch false "E1" (mkSession None None [Received good; Received e]) s).1
      = Ret (Some (ErrMsg "remote failure")).
Proof.
  intros e good s.
  assert (He : Error e = Some (ErrMsg "remote failure")) by reflexivity.
  destruct (C7_error_event_ends_session e _ s He) as (H1 & _ & H3).
  refine (conj He (conj H1 _)).
  rewrite (H3 false "E1" (mkSession None None [Received good; Received e])
              [good] [] s eq_refl eq_refl eq_refl).
  - reflexivity.
  - repeat constructor.
Defined.

(** C10 on a record that is rereading: two events outside the cache, two
    wipes, and the cursor still at -1. *)
Lemma C10_wipe_on_every_event_witness :
  let s := mkW (set_order (-1) Sample.alice) Sample.cache0 [] in
  let es := [Sample.event "alice@x/sub/a" 3 false; Sample.event "alice@x/sub/b" 4 true] in
  order (wdir s) = -1
  ∧ order (wdir (feed es s)) = -1
  ∧ wipes (wtrace (feed es s)) = 2%nat.
Proof.
  intros s es.
  assert (Ho : order (wdir s) = -1) by reflexivity.
  destruct (C10_wipe_on_every_event s Ho) as (_ & H & _).
  destruct (H es) as [H1 H2]; [repeat constructor | reflexivity |].
  exact (conj Ho (conj H1 H2)).
Defined.

(** ** The retry loop *)

Section RetryLoop.
Context {C : Collaborators}.

Lemma sleeps_snoc tr a :
  sleeps (tr ++ [a]) = sleeps tr ++ match a with ASleep d => [d] | _ => [] end.
Proof. unfold sleeps. rewrite omap_app. now destruct a. Qed.

Lemma watchOrders_snoc tr a :
  watchOrders (tr ++ [a]) =
    watchOrders tr ++ match a with AWatch _ o => [o] | _ => [] end.
Proof. unfold watchOrders. rewrite omap_app. now destruct a. Qed.

(** Project the fields out of a state built with [emit], [onDir], [onLog],
    then push [sleeps] and [watchOrders] through the trace. *)
Ltac unstate :=
  cbn [wtrace wdir wlog emit onLog onDir fst snd
       retryInterval order user set_order set_retryInterval] in *;
  rewrite ?sleeps_snoc, ?watchOrders_snoc, ?app_nil_r.

Ltac framed :=
  repeat match goal with |- _ ∧ _ => split end;
  solve [reflexivity | assumption | congruence].

(** The filter neither sleeps nor subscribes, and leaves the retry interval
    alone. *)
Lemma handleEvent_frame e s :
  sleeps (wtrace (handleEvent e s).2) = sleeps (wtrace s)
  ∧ watchOrders (wtrace (handleEvent e s).2) = watchOrders (wtrace s)
  ∧ retryInterval (wdir (handleEvent e s).2) = retryInterval (wdir s).
Proof.
  destruct (Error e) as [err|] eqn:He.
  - now rewrite (handleEvent_error _ _ _ He).
  - rewrite (handleEvent_watched _ _ He).
    assert (Hw : sleeps (wtrace (wipeIfRereading s)) = sleeps (wtrace s)
                 ∧ watchOrders (wtrace (wipeIfRereading s)) = watchOrders (wtrace s)
                 ∧ retryInterval (wdir (wipeIfRereading s)) = retryInterval (wdir s)).
    { unfold wipeIfRereading. destruct (_ =? _); [|framed]. unstate. framed. }
    destruct Hw as (Hw1 & Hw2 & Hw3).
    destruct (watched e _); cbn [snd]; [|framed].
    unfold applyEvent. unstate. framed.
Qed.

Lemma pump_frame dc rs s :
  sleeps (wtrace (pump dc rs s).2) = sleeps (wtrace s)
  ∧ watchOrders (wtrace (pump dc rs s).2) = watchOrders (wtrace s)
  ∧ retryInterval (wdir (pump dc rs s).2) = retryInterval (wdir s).
Proof.
  revert s. induction rs as [|r rs IH]; intros s.
  - simpl. destruct dc; framed.
  - destruct r as [|e|]; simpl.
    + destruct dc; framed.
    + pose proof (handleEvent_frame e s) as (H1 & H2 & H3).
      destruct (handleEvent e s) as [[err|] s']; cbn [fst snd] in *; [framed|].
      destruct (IH s') as (I1 & I2 & I3). rewrite I1, I2, I3. framed.
    + framed.
Qed.

(** What a call of [watch] leaves behind: no sleep, at most one call of
    [dir.Watch], made with the cursor of the record, and the retry interval
    put back to its initial value exactly when that call succeeded. *)
Lemma watch_frame dc ep0 ss s :
  sleeps (wtrace (watch dc ep0 ss s).2) = sleeps (wtrace s)
  ∧ watchOrders (wtrace (watch dc ep0 ss s).2) =
      watchOrders (wtrace s)
        ++ (if bindErr ss is None then [order (wdir s)] else [])
  ∧ retryInterval (wdir (watch dc ep0 ss s).2) =
      (if established ss then initialRetryInterval else retryInterval (wdir s)).
Proof.
  unfold watch, established.
  destruct (bindErr ss) as [eb|]; [unstate; framed|].
  destruct (watchErr ss) as [ew|]; [unstate; framed|].
  match goal with |- context [pump dc (selects ss) ?s0] =>
    pose proof (pump_frame dc (selects ss) s0) as (H1 & H2 & H3);
    destruct (pump dc (selects ss) s0) as [[r|] s'] end;
  unstate; rewrite H1, H2, H3; unstate; framed.
Qed.

Lemma watch_earlyFailure dc ep0 ss s msg :
  earlyFailure ss = Some msg ->
  (watch dc ep0 ss s).1 = Ret (Some (ErrMsg msg))
  ∧ wdir (watch dc ep0 ss s).2 = wdir s.
Proof.
  unfold earlyFailure, watch.
  destruct (bindErr ss) as [[|m]|]; [discriminate| |].
  - intros [= ->]. framed.
  - destruct (watchErr ss) as [[|m]|]; [discriminate| |discriminate].
    intros [= ->]. framed.
Qed.

Lemma backoff_range k : initialRetryInterval <= backoff k <= maxRetryInterval.
Proof.
  unfold backoff, initialRetryInterval, maxRetryInterval, Minute, Second.
  assert (1 <= 2 ^ Z.of_nat k) by (apply Z.pow_le_mono_r with (b := 0); lia).
  lia.
Qed.

(** Doubling and clamping steps through the sequence. *)
Lemma backoff_succ k :
  backoff (S k) =
    (if wrap64 (backoff k * 2) >? maxRetryInterval
     then maxRetryInterval else wrap64 (backoff k * 2)).
Proof.
  pose proof (backoff_range k) as Hr.
  assert (Hw : wrap64 (backoff k * 2) = backoff k * 2).
  { unfold wrap64. revert Hr.
    unfold initialRetryInterval, maxRetryInterval, Minute, Second. intros Hr.
    rewrite Z.mod_small; lia. }
  rewrite Hw. clear Hw Hr. unfold backoff.
  rewrite Nat2Z.inj_succ, Z.pow_succ_r by lia.
  assert (Hp : 1 <= 2 ^ Z.of_nat k) by (apply Z.pow_le_mono_r with (b := 0); lia).
  generalize dependent (2 ^ Z.of_nat k). intros q Hq.
  unfold initialRetryInterval, maxRetryInterval, Minute, Second.
  destruct (Z.gtb_spec (Z.min (10 * 1000000000 * q) (60 * 1000000000) * 2)
              (60 * 1000000000)); lia.
Qed.

Lemma afterFailure_backoff msg s k :
  retryInterval (wdir s) = backoff k ->
  retryInterval (wdir (afterFailure msg s)) = backoff (S k)
  ∧ sleeps (wtrace (afterFailure msg s)) = sleeps (wtrace s) ++ [backoff k].
Proof.
  intros Hk. rewrite backoff_succ. unfold afterFailure.
  destruct (Contains msg _); cbn -[wrap64 Z.mul]; rewrite Hk;
    destruct (_ >? _); cbn -[wrap64 Z.mul];
    rewrite ?omap_app; easy.
Qed.

Lemma loop_backoff dc ep0 sessions : ∀ k s,
  Forall (λ ss, is_Some (earlyFailure ss)) sessions ->
  retryInterval (wdir s) = backoff k ->
  (loop dc ep0 sessions s).1 = Looping
  ∧ retryInterval (wdir (loop dc ep0 sessions s).2) = backoff (k + length sessions)
  ∧ sleeps (wtrace (loop dc ep0 sessions s).2) =
      sleeps (wtrace s) ++ map backoff (seq k (length sessions)).
Proof.
  induction sessions as [|ss rest IH]; intros k s Hall Hk.
  - simpl. rewrite Nat.add_0_r, app_nil_r. easy.
  - inversion Hall as [|? ? [msg Hm] Hrest]; subst.
    destruct (watch_earlyFailure dc ep0 ss s msg Hm) as [Hr Hd].
    pose proof (watch_frame dc ep0 ss s) as (Hs & _ & _).
    simpl. destruct (watch dc ep0 ss s) as [r s1]. simpl in Hr, Hd, Hs. subst r.
    assert (Hk1 : retryInterval (wdir s1) = backoff k) by now rewrite Hd.
    destruct (afterFailure_backoff msg s1 k Hk1) as [Hk2 Hsl].
    destruct (IH (S k) _ Hrest Hk2) as (I1 & I2 & I3).
    rewrite I1, I2, I3, Hsl, Hs, <- app_assoc.
    replace (k + S (length rest))%nat with (S k + length rest)%nat by lia.
    easy.
Qed.

Lemma backoff_values :
  map backoff (seq 0 5) =
    [10 * Second; 20 * Second; 40 * Second; 60 * Second; 60 * Second].
Proof. reflexivity. Qed.

Lemma backoff_capped k : (3 <= k)%nat -> backoff k = 60 * Second.
Proof.
  intros Hk. unfold backoff, initialRetryInterval, maxRetryInterval, Minute.
  assert (2 ^ 3 <= 2 ^ Z.of_nat k) by (apply Z.pow_le_mono_r; lia).
  unfold Second. lia.
Qed.

Lemma enter_interval s : retryInterval (wdir (enter s)) = backoff 0.
Proof. unfold enter. now destruct (_ =? _). Qed.

Lemma wtrace_enter s : wtrace (enter s) = wtrace s.
Proof. unfold enter. now destruct (_ =? _). Qed.

Lemma watcher_looping dc ep0 sessions s :
  (loop dc ep0 sessions (enter s)).1 = Looping ->
  watcher dc ep0 sessions s = loop dc ep0 sessions (enter s).
Proof.
  unfold watcher. destruct (loop dc ep0 sessions (enter s)) as [o s'].
  simpl. now intros ->.
Qed.

(** C2. From the entry of the watcher, sessions that fail before a
    subscription is established are followed by sleeps of 10 s, 20 s, 40 s,
    60 s, 60 s, ...: each is twice the one before, clamped at 60 s. A call of
    [watch] puts the interval back to 10 s exactly when its call of
    [dir.Watch] succeeded, and leaves it alone otherwise; so the sleep that
    follows a session whose subscription was established is 10 s again, and
    the sequence starts over. *)
Theorem C2_retry_intervals (dc : bool) (ep0 : Endpoint)
  (sessions : list session) (s : wstate) :
  Forall (λ ss, is_Some (earlyFailure ss)) sessions ->
  ((watcher dc ep0 sessions s).1 = Looping
   ∧ sleeps (wtrace (watcher dc ep0 sessions s).2) =
       sleeps (wtrace s) ++ map backoff (seq 0 (length sessions)))
  ∧ (∀ ss s0,
       retryInterval (wdir (watch dc ep0 ss s0).2) =
         (if established ss then initialRetryInterval
          else retryInterval (wdir s0)))
  ∧ (∀ ss msg s0,
       established ss = true ->
       (watch dc ep0 ss s0).1 = Ret (Some (ErrMsg msg)) ->
       sleeps (wtrace (loop dc ep0 (ss :: sessions) s0).2) =
         sleeps (wtrace s0) ++ map backoff (seq 0 (S (length sessions))))
  ∧ (map backoff (seq 0 5) =
       [10 * Second; 20 * Second; 40 * Second; 60 * Second; 60 * Second]
     ∧ ∀ k, (3 <= k)%nat -> backoff k = 60 * Second).
Proof.
  intros Hall. split; [|split; [|split]].
  - destruct (loop_backoff dc ep0 sessions 0 (enter s) Hall (enter_interval s))
      as (H1 & _ & H3).
    rewrite (watcher_looping _ _ _ _ H1), H3, wtrace_enter. now split.
  - intros ss s0. apply watch_frame.
  - intros ss msg s0 He Hr.
    pose proof (watch_frame dc ep0 ss s0) as (Hs & _ & Hi).
    rewrite He in Hi. simpl.
    destruct (watch dc ep0 ss s0) as [r s1]. simpl in Hr, Hs, Hi. subst r.
    destruct (afterFailure_backoff msg s1 0 Hi) as [Hk Hsl].
    destruct (loop_backoff dc ep0 sessions 1 _ Hall Hk) as (_ & _ & H3).
    rewrite H3, Hsl, Hs, <- app_assoc. reflexivity.
  - split; [apply backoff_values | apply backoff_capped].
Qed.

Lemma afterFailure_order msg s :
  order (wdir (afterFailure msg s)) =
    (if Contains msg "cannot read log at order" then -1 else order (wdir s))
  ∧ watchOrders (wtrace (afterFailure msg s)) = watchOrders (wtrace s).
Proof.
  unfold afterFailure.
  destruct (Contains msg _); cbn -[wrap64 Z.mul];
    destruct (_ >? _); cbn -[wrap64 Z.mul];
    rewrite watchOrders_snoc, app_nil_r; now split.
Qed.

Lemma loop_bindFails dc ep0 msg n : ∀ k s,
  retryInterval (wdir s) = backoff k ->
  (loop dc ep0 (repeat (bindFails msg) n) s).1 = Looping
  ∧ wtrace (loop dc ep0 (repeat (bindFails msg) n) s).2 =
      wtrace s ++ flat_map (λ j, [ABind ep0; ASleep (backoff j)]) (seq k n).
Proof.
  induction n as [|n IH]; intros k s Hk.
  - simpl. now rewrite app_nil_r.
  - cbn [repeat loop]. unfold watch at 1 2. cbn [bindErr bindFails].
    assert (Hk1 : retryInterval (wdir (emit (ABind ep0) s)) = backoff k) by exact Hk.
    destruct (afterFailure_backoff msg _ k Hk1) as [Hk2 _].
    destruct (IH (S k) _ Hk2) as [I1 I2]. rewrite I1, I2. split; [reflexivity|].
    assert (Ht : wtrace (afterFailure msg (emit (ABind ep0) s)) =
                 (wtrace s ++ [ABind ep0]) ++ [ASleep (backoff k)]).
    { unfold afterFailure. rewrite <- Hk.
      destruct (Contains msg _); cbn -[wrap64 Z.mul];
        now destruct (_ >? _). }
    rewrite Ht. cbn [seq flat_map]. now rewrite <- !app_assoc.
Qed.

Lemma totalSlept_app tr tr' : totalSlept (tr ++ tr') = totalSlept tr + totalSlept tr'.
Proof.
  unfold totalSlept, sleeps. rewrite omap_app.
  induction (omap _ tr) as [|d l IH]; simpl; [reflexivity | lia].
Qed.

Lemma totalSlept_bindFails ep0 n : ∀ k,
  Z.of_nat n * initialRetryInterval <=
    totalSlept (flat_map (λ j, [ABind ep0; ASleep (backoff j)]) (seq k n)).
Proof.
  induction n as [|n IH]; intros k; [simpl; unfold totalSlept; simpl; lia|].
  cbn [seq flat_map].
  change ([ABind ep0; ASleep (backoff k)] ++ ?l) with
    ([ABind ep0; ASleep (backoff k)] ++ l).
  rewrite totalSlept_app. specialize (IH (S k)).
  pose proof (backoff_range k).
  unfold totalSlept at 1. cbn [sleeps omap foldr]. simpl omap. simpl foldr. lia.
Qed.

(** The part of the shutdown that holds: a watcher that returns has closed
    [d.dying], as the last thing it did. *)
Lemma watcher_exit_closes_dying dc ep0 sessions s :
  (watcher dc ep0 sessions s).1 = Exited ->
  ∃ tr, wtrace (watcher dc ep0 sessions s).2 = tr ++ [ACloseDying].
Proof.
  unfold watcher. destruct (loop dc ep0 sessions (enter s)) as [[| |] s'];
    simpl; try discriminate.
  intros _. now exists (wtrace s').
Qed.

(** And a session that has its subscription and nothing to receive returns
    nil as soon as [d.die] is closed. *)
Lemma watch_observes_die ep0 ss s :
  established ss = true -> selects ss = [] ->
  (watch true ep0 ss s).1 = Ret None.
Proof.
  unfold established, watch. destruct (bindErr ss); [discriminate|].
  destruct (watchErr ss); [discriminate|]. intros _ ->. reflexivity.
Qed.

(** C1, evaluated where it fails. With [d.die] closed from the start, a
    watcher whose sessions fail in [bind.DirServer] goes through any number
    [n] of them without returning: all it does is bind and sleep, it never
    reaches the [select] that reads [d.die], it does not close [d.dying], and
    by then it has slept for at least [n] times 10 s. *)
Theorem C1_die_not_observed_while_binding_fails
  (n : nat) (msg : string) (ep0 : Endpoint) (s : wstate) :
  (watcher true ep0 (repeat (bindFails msg) n) s).1 = Looping
  ∧ wtrace (watcher true ep0 (repeat (bindFails msg) n) s).2 =
      wtrace s ++ flat_map (λ j, [ABind ep0; ASleep (backoff j)]) (seq 0 n)
  ∧ totalSlept (wtrace s) + Z.of_nat n * initialRetryInterval <=
      totalSlept (wtrace (watcher true ep0 (repeat (bindFails msg) n) s).2).
Proof.
  destruct (loop_bindFails true ep0 msg n 0 (enter s) (enter_interval s)) as [H1 H2].
  rewrite (watcher_looping _ _ _ _ H1), H2, wtrace_enter.
  split; [exact H1|]. split; [reflexivity|].
  rewrite totalSlept_app. pose proof (totalSlept_bindFails ep0 n 0). lia.
Qed.

End RetryLoop.

(** C2 on scenario 3 of the specification: three failures to bind, then
    sleeps of 10, 20 and 40 s. *)
Lemma C2_retry_intervals_witness :
  let sessions := repeat (bindFails "connection refused") 3 in
  let s := mkW Sample.alice Sample.cache0 [] in
  Forall (λ ss, is_Some (earlyFailure ss)) sessions
  ∧ sleeps (wtrace (watcher false "E1" sessions s).2)
      = [10 * Second; 20 * Second; 40 * Second].
Proof.
  intros sessions s.
  assert (H : Forall (λ ss, is_Some (earlyFailure ss)) sessions)
    by (repeat constructor; eexists; reflexivity).
  destruct (C2_retry_intervals false "E1" sessions s H) as ((_ & Hs) & _).
  exact (conj H Hs).
Defined.

(** Scenario 8 and the shutdown that works: a watcher returns, and closes
    [d.dying], when its session ends with [upspin.ErrNotSupported] and when
    the [select] takes the closed [d.die]. *)
Example watcher_unsupported :
  watcher false "E1" [mkSession None (Some ErrNotSupported) []]
    (mkW Sample.alice Sample.cache0 [])
  = (Exited, mkW Sample.alice Sample.cache0
               [ABind "E1"; AMakeDone; AWatch "alice@x/" 5; ACloseDone; ACloseDying]).
Proof. reflexivity. Qed.

Example watcher_told_to_die :
  watcher true "E1" [mkSession None None []]
    (mkW Sample.alice Sample.cache0 [])
  = (Exited, mkW Sample.alice Sample.cache0
               [ABind "E1"; AMakeDone; AWatch "alice@x/" 5; ACloseDone; ACloseDying]).
Proof. reflexivity. Qed.

(** ** The registry *)

Section RegistryInvariant.
Context {C : Collaborators}.

Lemma Inv_new : Inv newProxiedDirs.
Proof.
  split; simpl.
  - constructor.
  - intros g Hg. inversion Hg.
  - intros c Hc. inversion Hc.
  - intros u d Hd. rewrite lookup_empty in Hd. discriminate.
  - reflexivity.
Qed.

Lemma watchersOf_nil u w :
  watchersOf u w = [] <-> ∀ g, g ∈ watchers w -> g_user g ≠ u.
Proof.
  unfold watchersOf. split.
  - intros H g Hg Hu.
    assert (Hin : g ∈ filter (λ g, g_user g = u) (watchers w))
      by (apply list_elem_of_filter; auto).
    rewrite H in Hin. inversion Hin.
  - intros H. induction (watchers w) as [|g l IH]; [reflexivity|].
    rewrite filter_cons. destruct (decide (g_user g = u)) as [Hu|Hu].
    + exfalso. apply (H g); [left | exact Hu].
    + apply IH. intros g' Hg'. apply H. now right.
Qed.

(** A user without record, or whose record has no [die] channel, has no
    watcher. *)
Lemma Inv_idle w u :
  Inv w ->
  (∀ d, m (p w) !! u = Some d -> die d = None) ->
  watchersOf u w = [].
Proof.
  intros HI Hd. apply watchersOf_nil. intros g Hg Hu.
  destruct (inv_rec w HI g Hg) as [(d & Hl & Hdie & _) _].
  rewrite Hu in Hl. specialize (Hd d Hl). congruence.
Qed.

Lemma NoDup_fmap_filter_le {A B} `{EqDecision B} (f : A -> B) (l : list A) (b : B) :
  NoDup (f <$> l) -> (length (filter (λ x, f x = b) l) <= 1)%nat.
Proof.
  induction l as [|a l IH]; intros Hnd; [simpl; lia|].
  rewrite fmap_cons in Hnd. apply NoDup_cons in Hnd as [Hni Hnd].
  rewrite filter_cons. destruct (decide (f a = b)) as [Hab|Hab].
  - assert (Hnil : filter (λ x, f x = b) l = []).
    { destruct (filter (λ x, f x = b) l) as [|x l'] eqn:Hf; [reflexivity|].
      assert (Hx : x ∈ filter (λ x, f x = b) l) by (rewrite Hf; left).
      apply list_elem_of_filter in Hx as [Hxb Hxl].
      exfalso. apply Hni. rewrite Hab, <- Hxb. now apply list_elem_of_fmap_2. }
    rewrite Hnil. simpl. lia.
  - now apply IH.
Qed.

(** Writing a record that carries the channels of the user's watchers keeps
    the invariant. *)
Lemma Inv_store w u d' :
  Inv w ->
  (∀ g, g ∈ watchers w -> g_user g = u ->
     die d' = Some (g_die g) ∧ dying d' = Some (g_dying g)) ->
  okRecord (nextChan w) d' ->
  Inv (store u d' w).
Proof.
  intros HI Hg Hok. split; simpl.
  - apply (inv_nodup w HI).
  - intros g Hin. destruct (inv_rec w HI g Hin) as [(d & Hl & Hdie & Hdy) Hnc].
    split; [|exact Hnc].
    destruct (decide (g_user g = u)) as [Hu|Hu].
    + exists d'. rewrite Hu, lookup_insert_eq. destruct (Hg g Hin Hu). auto.
    + exists d. rewrite lookup_insert_ne by congruence. auto.
  - apply (inv_closed w HI).
  - intros u0 d0. destruct (decide (u = u0)) as [->|Hu].
    + rewrite lookup_insert_eq. now intros [= <-].
    + rewrite lookup_insert_ne by exact Hu. apply (inv_ok w HI).
  - apply (inv_next w HI).
Qed.

Lemma even_neq c y : Nat.even c = true -> Nat.even y = false -> c ≠ y.
Proof. intros Hc Hy ->. congruence. Qed.

(** [d.close()], when it returns, leaves a world that satisfies the
    invariant and in which the user has no watcher; the record is the old
    one with [die] set to nil. *)
Lemma closeDir_Inv exits u d w d1 w1 :
  Inv w ->
  m (p w) !! u = Some d ->
  closeDir exits d w = Some (d1, w1) ->
  Inv w1
  ∧ watchersOf u w1 = []
  ∧ d1 = set_die None d
  ∧ p w1 = p w ∧ nextChan w1 = nextChan w.
Proof.
  intros HI Hl. unfold closeDir.
  destruct (die d) as [c|] eqn:Hdie.
  2:{ intros [= <- <-]. split; [exact HI|]. split.
      - apply (Inv_idle _ _ HI). intros d0 Hd0. congruence.
      - split; [|auto]. destruct d. simpl in Hdie. now subst. }
  destruct (isClosed c w) eqn:Hcc; [discriminate|].
  destruct (dying d) as [y|] eqn:Hdy; [|discriminate].
  destruct (inv_ok w HI u d Hl) as [Hokc Hoky].
  destruct (Hokc c Hdie) as [Hclt Hceven].
  destruct (Hoky y Hdy) as [Hylt Hyodd].
  assert (Hdyodd : ∀ g, g ∈ watchers w -> g_dying g ≠ c).
  { intros g Hg. destruct (inv_rec w HI g Hg) as [(d0 & Hl0 & _ & Hdy0) _].
    destruct (inv_ok w HI _ _ Hl0) as [_ Hy0]. destruct (Hy0 _ Hdy0) as [_ Hodd].
    intros E. rewrite E in Hodd. congruence. }
  assert (Hmine : ∀ g, g ∈ watchers w -> g_user g = u -> g_dying g = y).
  { intros g Hg Hu. destruct (inv_rec w HI g Hg) as [(d0 & Hl0 & _ & Hdy0) _].
    rewrite Hu in Hl0. congruence. }
  destruct (isClosed y _) eqn:Hyc.
  - intros [= <- <-]. unfold isClosed in Hyc. apply bool_decide_eq_true in Hyc.
    simpl in Hyc. apply elem_of_cons in Hyc as [Hyc|Hyc];
      [exfalso; now apply (even_neq c y Hceven Hyodd)|].
    assert (Hnone : ∀ g, g ∈ watchers w -> g_user g ≠ u).
    { intros g Hg Hu. destruct (inv_rec w HI g Hg) as [_ Hnc].
      rewrite (Hmine g Hg Hu) in Hnc. contradiction. }
    split; [|split; [now apply watchersOf_nil | auto]].
    split; simpl.
    + apply (inv_nodup w HI).
    + intros g Hg. destruct (inv_rec w HI g Hg) as [Hd Hnc]. split; [exact Hd|].
      intros Hin. apply elem_of_cons in Hin as [Hin|Hin];
        [now apply (Hdyodd g Hg) | contradiction].
    + intros c0 Hc0. apply elem_of_cons in Hc0 as [->|Hc0];
        [exact Hclt | now apply (inv_closed w HI)].
    + apply (inv_ok w HI).
    + apply (inv_next w HI).
  - destruct (exits && existsb (holds y) _) eqn:Hex; [|discriminate].
    intros [= <- <-].
    split; [|split; [|auto]].
    + split; simpl.
      * apply (sublist_NoDup _ (g_user <$> watchers w));
          [apply (inv_nodup w HI) | apply fmap_sublist, sublist_filter].
      * intros g Hg. apply list_elem_of_filter in Hg as [Hh Hg].
        destruct (inv_rec w HI g Hg) as [Hd Hnc]. split; [exact Hd|].
        intros Hin. apply elem_of_cons in Hin as [Hin|Hin].
        { unfold holds in Hh. rewrite bool_decide_eq_true_2 in Hh by exact Hin.
          exact Hh. }
        apply elem_of_cons in Hin as [Hin|Hin];
          [now apply (Hdyodd g Hg) | contradiction].
      * intros c0 Hc0. apply elem_of_cons in Hc0 as [->|Hc0]; [exact Hylt|].
        apply elem_of_cons in Hc0 as [->|Hc0];
          [exact Hclt | now apply (inv_closed w HI)].
      * apply (inv_ok w HI).
      * apply (inv_next w HI).
    + apply watchersOf_nil. simpl. intros g Hg Hu.
      apply list_elem_of_filter in Hg as [Hh Hg].
      unfold holds in Hh. rewrite bool_decide_eq_true_2 in Hh; [exact Hh|].
      now apply Hmine.
Qed.

Lemma Inv_record o w : Inv w -> Inv (record o w).
Proof. intros [H1 H2 H3 H4 H5]. now split. Qed.

Lemma okRecord_mono nx nx' d :
  (nx <= nx')%nat -> okRecord nx d -> okRecord nx' d.
Proof.
  intros Hle [H1 H2]. split.
  - intros c Hc. destruct (H1 c Hc). split; [lia|assumption].
  - intros y Hy. destruct (H2 y Hy). split; [lia|assumption].
Qed.

(** Starting a watcher for a user that has none keeps the invariant. *)
Lemma startWatcher_Inv u ep0 d w :
  Inv w ->
  watchersOf u w = [] ->
  Inv (store u (startWatcher u ep0 d w).1 (startWatcher u ep0 d w).2).
Proof.
  intros HI Hnone. rewrite watchersOf_nil in Hnone.
  pose proof (inv_next w HI) as Hev.
  split; simpl.
  - rewrite fmap_app. apply NoDup_app. split; [apply (inv_nodup w HI)|].
    split; [|apply NoDup_singleton].
    intros x Hx Hx'. apply list_elem_of_fmap in Hx as (g & -> & Hg).
    simpl in Hx'. apply list_elem_of_singleton in Hx'. now apply (Hnone g Hg).
  - intros g Hg. apply elem_of_app in Hg as [Hg|Hg].
    + destruct (inv_rec w HI g Hg) as [(d0 & Hl & Hc) Hnc]. split; [|exact Hnc].
      exists d0. rewrite lookup_insert_ne; [auto|].
      intros E. now apply (Hnone g Hg).
    + apply list_elem_of_singleton in Hg as ->. simpl. split.
      * eexists. rewrite lookup_insert_eq. split; [reflexivity|]. now split.
      * intros Hin. apply (inv_closed w HI) in Hin. lia.
  - intros c Hc. apply (inv_closed w HI) in Hc. lia.
  - intros u0 d0. destruct (decide (u = u0)) as [->|Hu].
    + rewrite lookup_insert_eq. intros [= <-]. split; simpl.
      * intros c [= <-]. split; [lia | exact Hev].
      * intros y [= <-]. split; [lia|]. rewrite Nat.even_succ, <- Nat.negb_even.
        now rewrite Hev.
    + rewrite lookup_insert_ne by exact Hu. intros Hl.
      apply (okRecord_mono (nextChan w)); [lia | now apply (inv_ok w HI u0)].
  - exact Hev.
Qed.

Lemma touch_lookup u ep0 now d w :
  ∃ d', m (p (touch u ep0 now d w)) !! u = Some d' ∧ atime d' = now.
Proof.
  unfold touch. destruct (die (set_atime now d)); simpl;
    eexists; rewrite lookup_insert_eq; (split; [reflexivity|]); reflexivity.
Qed.

Lemma touch_Inv u ep0 now d w :
  Inv w ->
  (∀ g, g ∈ watchers w -> g_user g = u ->
     die d = Some (g_die g) ∧ dying d = Some (g_dying g)) ->
  okRecord (nextChan w) d ->
  Inv (touch u ep0 now d w).
Proof.
  intros HI Hg Hok. unfold touch. destruct (die (set_atime now d)) eqn:Hd.
  - apply Inv_store; [exact HI | exact Hg | exact Hok].
  - apply startWatcher_Inv; [exact HI|].
    apply watchersOf_nil. intros g Hin Hu. destruct (Hg g Hin Hu) as [E _].
    simpl in Hd. congruence.
Qed.

(** [proxyFor] in a registry that is not closing, for a name that parses. *)
Lemma proxyFor_unfold exits n ep0 now w u :
  closing (p w) = false ->
  Parse n = Some u ->
  proxyFor exits n ep0 now w =
    match m (p w) !! u with
    | Some d =>
      if bool_decide (ep d ≠ ep0)
      then match closeDir exits d w with
           | Some (d1, w1) => Some (touch u ep0 now (set_ep ep0 d1) w1)
           | None => None
           end
      else Some (touch u ep0 now d w)
    | None => Some (touch u ep0 now (set_ep ep0 (zeroDir u)) w)
    end.
Proof.
  intros Hc Hp. unfold proxyFor, touch. rewrite Hc, Hp.
  destruct (m (p w) !! u) as [d|].
  - destruct (bool_decide (ep d ≠ ep0)).
    + destruct (closeDir exits d w) as [[d1 w1]|]; [|reflexivity].
      simpl. now destruct (die d1).
    + simpl. now destruct (die d).
  - reflexivity.
Qed.

Lemma proxyFor_Inv exits n ep0 now w w' :
  Inv w -> proxyFor exits n ep0 now w = Some w' -> Inv w'.
Proof.
  intros HI. destruct (closing (p w)) eqn:Hc.
  { unfold proxyFor. rewrite Hc. now intros [= <-]. }
  destruct (Parse n) as [u|] eqn:Hp.
  2:{ unfold proxyFor. rewrite Hc, Hp. intros [= <-]. now apply Inv_record. }
  rewrite (proxyFor_unfold _ _ _ _ _ _ Hc Hp).
  destruct (m (p w) !! u) as [d|] eqn:Hl.
  - destruct (bool_decide (ep d ≠ ep0)).
    + destruct (closeDir exits d w) as [[d1 w1]|] eqn:Hcd; [|discriminate].
      intros [= <-].
      destruct (closeDir_Inv _ _ _ _ _ _ HI Hl Hcd) as (HI1 & Hnone & -> & Hp1 & Hn1).
      apply touch_Inv; [exact HI1| |].
      * intros g Hg Hu. rewrite watchersOf_nil in Hnone. now destruct (Hnone g Hg).
      * rewrite Hn1. destruct (inv_ok w HI u d Hl) as [_ H2].
        split; [discriminate | exact H2].
    + intros [= <-]. apply touch_Inv; [exact HI| |now apply (inv_ok w HI u)].
      intros g Hg Hu. destruct (inv_rec w HI g Hg) as [(d0 & Hl0 & Hc0) _].
      rewrite Hu in Hl0. congruence.
  - intros [= <-]. apply touch_Inv; [exact HI| |].
    + intros g Hg Hu. destruct (inv_rec w HI g Hg) as [(d0 & Hl0 & _) _].
      rewrite Hu in Hl0. congruence.
    + split; discriminate.
Qed.

Lemma setOrder_Inv n o w : Inv w -> Inv (setOrder n o w).
Proof.
  intros HI. unfold setOrder. destruct (closing (p w)); [exact HI|].
  destruct (Parse n) as [u|]; [|now apply Inv_record].
  destruct (m (p w) !! u) as [d|] eqn:Hl; simpl.
  - apply Inv_store; [exact HI| |exact (inv_ok w HI u d Hl)].
    intros g Hg Hu. destruct (inv_rec w HI g Hg) as [(d0 & Hl0 & Hc0) _].
    rewrite Hu in Hl0. simpl. congruence.
  - apply Inv_store; [exact HI| |split; discriminate].
    intros g Hg Hu. destruct (inv_rec w HI g Hg) as [(d0 & Hl0 & _) _].
    rewrite Hu in Hl0. congruence.
Qed.

Lemma closeAll_Inv exits us : ∀ w w',
  Inv w -> closeAll exits us w = Some w' ->
  Inv w' ∧ closing (p w') = closing (p w).
Proof.
  induction us as [|u us IH]; intros w w' HI; simpl.
  - now intros [= <-].
  - destruct (m (p w) !! u) as [d|] eqn:Hl; [|now apply IH].
    destruct (closeDir (exits u) d w) as [[d1 w1]|] eqn:Hcd; [|discriminate].
    destruct (closeDir_Inv _ _ _ _ _ _ HI Hl Hcd) as (HI1 & Hnone & -> & Hp1 & Hn1).
    intros H. apply IH in H as [H1 H2].
    + split; [exact H1|]. rewrite H2. simpl. now rewrite Hp1.
    + apply Inv_store; [exact HI1| |].
      * intros g Hg Hu. rewrite watchersOf_nil in Hnone. now destruct (Hnone g Hg).
      * rewrite Hn1. destruct (inv_ok w HI u d Hl) as [_ H2].
        split; [discriminate | exact H2].
Qed.

Lemma Inv_setClosing w : Inv w -> Inv (setClosing w).
Proof. intros [H1 H2 H3 H4 H5]. now split. Qed.

Lemma close_Inv exits w w' :
  Inv w -> close exits w = Some w' -> Inv w' ∧ closing (p w') = true.
Proof.
  intros HI. unfold close. destruct (closing (p w)) eqn:Hc.
  - now intros [= <-].
  - intros H. apply closeAll_Inv in H; [exact H | now apply Inv_setClosing].
Qed.

Lemma watcherReturns_Inv c w : Inv w -> Inv (watcherReturns c w).
Proof.
  intros HI. unfold watcherReturns.
  destruct (existsb (holds c) (watchers w)) eqn:Hex; [|exact HI].
  apply existsb_exists in Hex as (g0 & Hg0 & Hh0).
  apply list_elem_of_In in Hg0.
  unfold holds in Hh0. apply bool_decide_eq_true in Hh0.
  split; simpl.
  - apply (sublist_NoDup _ (g_user <$> watchers w));
      [apply (inv_nodup w HI) | apply fmap_sublist, sublist_filter].
  - intros g Hg. apply list_elem_of_filter in Hg as [Hh Hg].
    destruct (inv_rec w HI g Hg) as [Hd Hnc]. split; [exact Hd|].
    intros Hin. apply elem_of_cons in Hin as [Hin|Hin]; [|contradiction].
    unfold holds in Hh. rewrite bool_decide_eq_true_2 in Hh by exact Hin.
    exact Hh.
  - intros c0 Hc0. apply elem_of_cons in Hc0 as [->|Hc0];
      [|now apply (inv_closed w HI)].
    destruct (inv_rec w HI g0 Hg0) as [(d & Hl & _ & Hdy) _].
    destruct (inv_ok w HI _ _ Hl) as [_ H2]. rewrite Hh0 in Hdy.
    now destruct (H2 c Hdy).
  - apply (inv_ok w HI).
  - apply (inv_next w HI).
Qed.

Lemma step_Inv o w w' : Inv w -> step o w = Some w' -> Inv w'.
Proof.
  intros HI. destruct o as [exits n ep0 now|n o|exits|c]; simpl.
  - now apply proxyFor_Inv.
  - intros [= <-]. now apply setOrder_Inv.
  - intros H. now apply close_Inv in H.
  - intros [= <-]. now apply watcherReturns_Inv.
Qed.

Lemma run_Inv ops : ∀ w w', Inv w -> run ops w = Some w' -> Inv w'.
Proof.
  induction ops as [|o ops IH]; intros w w' HI; simpl.
  - now intros [= <-].
  - destruct (step o w) as [w1|] eqn:Hs; [|discriminate].
    apply IH. now apply (step_Inv o w).
Qed.

Lemma reachable_Inv w : reachable w -> Inv w.
Proof. intros [ops H]. apply (run_Inv ops _ _ Inv_new H). Qed.

End RegistryInvariant.

Section RegistryClaims.
Context {C : Collaborators}.

(** What [d.close()] writes to the history when there is a [die] to close:
    [die] is closed, then the watcher returns unless it had already, then the
    receive on [dying] completes. *)
Lemma closeDir_hist exits d w d1 w1 c :
  die d = Some c ->
  closeDir exits d w = Some (d1, w1) ->
  ∃ y mid, dying d = Some y
    ∧ y ∈ closedChans w1
    ∧ (mid = [] ∨ mid = [RWatcherExit y])
    ∧ hist w1 = hist w ++ [RCloseDie c] ++ mid ++ [RRecvDying y].
Proof.
  intros Hc. unfold closeDir. rewrite Hc.
  destruct (isClosed c w); [discriminate|].
  destruct (dying d) as [y|]; [|discriminate].
  destruct (isClosed y _) eqn:Hy.
  - intros [= <- <-]. exists y, []. split; [reflexivity|].
    unfold isClosed in Hy. apply bool_decide_eq_true in Hy.
    split; [exact Hy|]. split; [now left|]. simpl. now rewrite <- app_assoc.
  - destruct (exits && _); [|discriminate].
    intros [= <- <-]. exists y, [RWatcherExit y]. split; [reflexivity|].
    split; [simpl; left|]. split; [now right|].
    simpl. now rewrite <- !app_assoc.
Qed.

Lemma closeDir_p exits d w d1 w1 :
  closeDir exits d w = Some (d1, w1) -> p w1 = p w.
Proof.
  unfold closeDir. destruct (die d) as [c|]; [|now intros [= <- <-]].
  destruct (isClosed c w); [discriminate|].
  destruct (dying d) as [y|]; [|discriminate].
  destruct (isClosed y _); [now intros [= <- <-]|].
  destruct (exits && _); [|discriminate]. now intros [= <- <-].
Qed.

Lemma closeAll_closing exits us : ∀ w w',
  closeAll exits us w = Some w' -> closing (p w') = closing (p w).
Proof.
  induction us as [|u us IH]; intros w w'; simpl.
  - now intros [= <-].
  - destruct (m (p w) !! u) as [d|]; [|apply IH].
    destruct (closeDir (exits u) d w) as [[d1 w1]|] eqn:Hcd; [|discriminate].
    intros H. apply IH in H. rewrite H. simpl.
    now rewrite (closeDir_p _ _ _ _ _ Hcd).
Qed.

(** C5. In every world that the registry can reach, a user has at most
    one running watcher. When [proxyFor] is called for a record whose
    endpoint differs and that has a [die] channel, and the call returns, it
    has gone through [d.close()]: [die] closed, [dying] received from and
    closed, the user left without watcher and the [die] field nil; only then
    was the watcher for the new endpoint started, and it is the only one of
    the user. *)
Theorem C5_one_watcher_per_user (w : world) :
  reachable w ->
  (∀ u, (length (watchersOf u w) <= 1)%nat)
  ∧ (∀ exits n ep0 now u d c w',
       closing (p w) = false -> Parse n = Some u ->
       m (p w) !! u = Some d -> ep d ≠ ep0 -> die d = Some c ->
       proxyFor exits n ep0 now w = Some w' ->
       ∃ d1 w1 y mid,
         dying d = Some y
         ∧ closeDir exits d w = Some (d1, w1)
         ∧ die d1 = None
         ∧ y ∈ closedChans w1
         ∧ watchersOf u w1 = []
         ∧ hist w1 = hist w ++ [RCloseDie c] ++ mid ++ [RRecvDying y]
         ∧ hist w' = hist w1 ++ [RGo u ep0 (nextChan w1) (S (nextChan w1))]
         ∧ watchersOf u w' = [mkG u ep0 (nextChan w1) (S (nextChan w1))]).
Proof.
  intros Hr. pose proof (reachable_Inv w Hr) as HI. split.
  - intros u. apply NoDup_fmap_filter_le, (inv_nodup w HI).
  - intros exits n ep0 now u d c w' Hc Hp Hl Hep Hdie.
    rewrite (proxyFor_unfold _ _ _ _ _ _ Hc Hp), Hl.
    rewrite bool_decide_eq_true_2 by exact Hep.
    destruct (closeDir exits d w) as [[d1 w1]|] eqn:Hcd; [|discriminate].
    intros [= <-].
    destruct (closeDir_Inv _ _ _ _ _ _ HI Hl Hcd) as (HI1 & Hnone & -> & Hp1 & Hn1).
    destruct (closeDir_hist _ _ _ _ _ _ Hdie Hcd) as (y & mid & Hdy & Hyc & _ & Hh).
    exists (set_die None d), w1, y, mid.
    split; [exact Hdy|]. split; [reflexivity|]. split; [reflexivity|].
    split; [exact Hyc|]. split; [exact Hnone|]. split; [exact Hh|].
    unfold touch. simpl. split; [reflexivity|].
    unfold watchersOf in *. simpl. rewrite filter_app, Hnone. simpl.
    rewrite filter_cons. simpl. now rewrite decide_True.
Qed.

(** C8, as amended. A call of [proxyFor] with a name that parses, on a
    registry that is not closing, when it returns has set [atime] of the
    record of the user, found or new, to the current time, whatever the
    endpoint and whether or not a watcher was running. On a registry that is
    closing the call returns at once and changes nothing. *)
Theorem C8_proxyFor_updates_atime (exits : bool) (n : PathName)
  (ep0 : Endpoint) (now : Z) (w : world) (u : UserName) :
  Parse n = Some u ->
  (closing (p w) = false ->
     ∀ w', proxyFor exits n ep0 now w = Some w' ->
       ∃ d, m (p w') !! u = Some d ∧ atime d = now)
  ∧ (closing (p w) = true -> proxyFor exits n ep0 now w = Some w).
Proof.
  intros Hp. split.
  - intros Hc w'. rewrite (proxyFor_unfold _ _ _ _ _ _ Hc Hp).
    destruct (m (p w) !! u) as [d|].
    + destruct (bool_decide (ep d ≠ ep0)).
      * destruct (closeDir exits d w) as [[d1 w1]|]; [|discriminate].
        intros [= <-]. apply touch_lookup.
      * intros [= <-]. apply touch_lookup.
    + intros [= <-]. apply touch_lookup.
  - intros Hc. unfold proxyFor. now rewrite Hc.
Qed.

(** C9. Once [close] has returned, [closing] is set; and with [closing]
    set, [setOrder] returns the world as it found it: no record is created or
    changed, and nothing is logged, not even for a name that does not
    parse. *)
Theorem C9_setOrder_noop_when_closing (w : world) (n : PathName) (o : Z) :
  (∀ exits w0, close exits w0 = Some w -> closing (p w) = true)
  ∧ (closing (p w) = true -> setOrder n o w = w).
Proof.
  split.
  - intros exits w0. unfold close. destruct (closing (p w0)) eqn:Hc.
    + now intros [= <-].
    + intros H. now apply closeAll_closing in H.
  - intros Hc. unfold setOrder. now rewrite Hc.
Qed.

End RegistryClaims.

(** Two registrations of one user with different endpoints, the watcher of
    the first obeying [die]. *)
Lemma C5_one_watcher_per_user_witness :
  let ops := [OProxyFor true "alice@x/foo" "E1" 5] in
  let w := mkWorld
             (mkDirs false
                {["alice@x" := mkProxiedDir 5 "alice@x" 0 "E1" (Some 0%nat) (Some 1%nat) 0]})
             2%nat [] [mkG "alice@x" "E1" 0%nat 1%nat] [RGo "alice@x" "E1" 0%nat 1%nat] in
  run ops newProxiedDirs = Some w
  ∧ (length (watchersOf "alice@x" w) <= 1)%nat
  ∧ ∃ w', proxyFor true "alice@x/bar" "E2" 9 w = Some w'
      ∧ hist w' = [RGo "alice@x" "E1" 0%nat 1%nat; RCloseDie 0%nat;
                   RWatcherExit 1%nat; RRecvDying 1%nat;
                   RGo "alice@x" "E2" 2%nat 3%nat]
      ∧ watchersOf "alice@x" w' = [mkG "alice@x" "E2" 2%nat 3%nat].
Proof.
  intros ops w.
  assert (Hrun : run ops newProxiedDirs = Some w) by reflexivity.
  assert (Hr : reachable w) by (exists ops; exact Hrun).
  destruct (C5_one_watcher_per_user w Hr) as [H1 H2].
  split; [exact Hrun|]. split; [apply H1|].
  destruct (H2 true "alice@x/bar" "E2" 9 "alice@x"
              (mkProxiedDir 5 "alice@x" 0 "E1" (Some 0%nat) (Some 1%nat) 0)
              0%nat
              (default w (proxyFor true "alice@x/bar" "E2" 9 w))
              eq_refl eq_refl eq_refl ltac:(discriminate) eq_refl eq_refl)
    as (d1 & w1 & y & mid & _ & Hcd & _ & _ & _ & _ & Hh & Hw).
  injection Hcd as <- <-.
  eexists. split; [reflexivity|]. split; [exact Hh | exact Hw].
Defined.

(** C8 on a second registration of a user, at time 9. *)
Lemma C8_proxyFor_updates_atime_witness :
  let w := mkWorld
             (mkDirs false
                {["alice@x" := mkProxiedDir 5 "alice@x" 0 "E1" (Some 0%nat) (Some 1%nat) 0]})
             2%nat [] [mkG "alice@x" "E1" 0%nat 1%nat] [RGo "alice@x" "E1" 0%nat 1%nat] in
  Parse "alice@x/bar" = Some "alice@x"
  ∧ closing (p w) = false
  ∧ ∃ w' d, proxyFor false "alice@x/bar" "E1" 9 w = Some w'
      ∧ m (p w') !! "alice@x" = Some d ∧ atime d = 9.
Proof.
  intros w.
  destruct (C8_proxyFor_updates_atime (C := Sample.collaborators)
              false "alice@x/bar" "E1" 9 w "alice@x" eq_refl)
    as [H _].
  destruct (H eq_refl _ eq_refl) as (d & Hl & Ht).
  split; [reflexivity|]. split; [reflexivity|].
  eexists _, d. split; [reflexivity|]. split; [exact Hl | exact Ht].
Defined.

(** C8 as the specification words it fails on a registry that is closing:
    after [close], a call at time 9 for a name that parses leaves the record
    with the time of the first call, 5. *)
Lemma C8_counterexample :
  let ops := [OProxyFor true "alice@x/foo" "E1" 5; OClose (λ _, true)] in
  let d := mkProxiedDir 5 "alice@x" 0 "E1" None (Some 1%nat) 0 in
  let wc := mkWorld (mkDirs true {["alice@x" := d]}) 2%nat [1%nat; 0%nat] []
              [RGo "alice@x" "E1" 0%nat 1%nat; RCloseDie 0%nat;
               RWatcherExit 1%nat; RRecvDying 1%nat] in
  run ops newProxiedDirs = Some wc
  ∧ Parse "alice@x/foo" = Some "alice@x"
  ∧ proxyFor true "alice@x/foo" "E1" 9 wc = Some wc
  ∧ m (p wc) !! "alice@x" = Some d
  ∧ atime d ≠ 9.
Proof.
  intros ops d wc. split; [reflexivity|]. split; [reflexivity|].
  split; [reflexivity|]. split; [reflexivity|]. discriminate.
Qed.

(** C9 on a registry that was closed after one registration: recording a
    cursor for that user, for a new user, or under a name that does not
    parse, changes nothing. *)
Lemma C9_setOrder_noop_when_closing_witness :
  let ops := [OProxyFor true "alice@x/foo" "E1" 5; OClose (λ _, true)] in
  let w := default newProxiedDirs (run ops newProxiedDirs) in
  closing (p w) = true
  ∧ setOrder "alice@x/foo" 42 w = w
  ∧ setOrder "bob@y/foo" 42 w = w
  ∧ setOrder "nonsense" 42 w = w.
Proof.
  intros ops w.
  assert (Hc : closing (p w) = true)
    by exact (proj1 (C9_setOrder_noop_when_closing (C := Sample.collaborators) w "" 0)
                (λ _, true)
                (default newProxiedDirs
                   (run [OProxyFor true "alice@x/foo" "E1" 5] newProxiedDirs))
                eq_refl).
  split; [exact Hc|].
  split; [exact (proj2 (C9_setOrder_noop_when_closing w _ _) Hc)|].
  split; [exact (proj2 (C9_setOrder_noop_when_closing w _ _) Hc)|].
  exact (proj2 (C9_setOrder_noop_when_closing w _ _) Hc).
Defined.

(** * Further properties of the watcher *)

Section WatcherFrame.
Context {C : Collaborators}.

Lemma sameOwned_refl d : sameOwned d d.
Proof. now repeat split. Qed.

Lemma sameOwned_trans d1 d2 d3 :
  sameOwned d1 d2 -> sameOwned d2 d3 -> sameOwned d1 d3.
Proof.
  intros (A1 & A2 & A3 & A4 & A5) (B1 & B2 & B3 & B4 & B5).
  unfold sameOwned. rewrite B1, B2, B3, B4, B5. auto.
Qed.

(** The filter writes the cursor of the record and nothing else, and the
    cursor it writes is the one of the event. *)
Lemma handleEvent_wdir e s :
  wdir (handleEvent e s).2 = wdir s
  ∨ (Error e = None ∧ wdir (handleEvent e s).2 = set_order (Order e) (wdir s)).
Proof.
  destruct (Error e) as [err|] eqn:He.
  - left. now rewrite (handleEvent_error _ _ _ He).
  - rewrite (handleEvent_watched _ _ He). destruct (watched e _); cbn [snd].
    + right. split; [reflexivity|]. unfold applyEvent. cbn.
      now rewrite wdir_wipeIfRereading.
    + left. apply wdir_wipeIfRereading.
Qed.

Lemma pump_wdir dc rs : ∀ s,
  sameOwned (wdir s) (wdir (pump dc rs s).2)
  ∧ (order (wdir (pump dc rs s).2) = order (wdir s)
     ∨ ∃ e, Received e ∈ rs ∧ Error e = None
            ∧ Order e = order (wdir (pump dc rs s).2)).
Proof.
  induction rs as [|r rs IH]; intros s.
  - simpl. destruct dc; (split; [apply sameOwned_refl | now left]).
  - destruct r as [|e|]; simpl.
    + destruct dc; (split; [apply sameOwned_refl | now left]).
    + pose proof (handleEvent_wdir e s) as Hd.
      destruct (handleEvent e s) as [[err|] s'] eqn:Hh; cbn [snd] in *.
      * destruct Hd as [Hd|[He Hd]]; rewrite Hd.
        -- split; [apply sameOwned_refl | now left].
        -- split; [now repeat split|]. right. exists e.
           split; [left|]. now split.
      * destruct (IH s') as [I1 I2]. split.
        -- eapply sameOwned_trans; [|exact I1].
           destruct Hd as [Hd|[He Hd]]; rewrite Hd;
             [apply sameOwned_refl | now repeat split].
        -- destruct I2 as [I2|(e' & Hin & He' & Ho)].
           ++ destruct Hd as [Hd|[He Hd]].
              ** left. rewrite <- Hd. exact I2.
              ** right. exists e. split; [left|]. split; [exact He|].
                 symmetry. etransitivity; [exact I2|]. now rewrite Hd.
           ++ right. exists e'. split; [now right|]. now split.
    + split; [apply sameOwned_refl | now left].
Qed.

Lemma watch_wdir dc ep0 ss s :
  sameOwned (wdir s) (wdir (watch dc ep0 ss s).2)
  ∧ (order (wdir (watch dc ep0 ss s).2) = order (wdir s)
     ∨ ∃ e, Received e ∈ selects ss ∧ Error e = None
            ∧ Order e = order (wdir (watch dc ep0 ss s).2)).
Proof.
  unfold watch.
  destruct (bindErr ss); [split; [apply sameOwned_refl | now left]|].
  destruct (watchErr ss); [split; [apply sameOwned_refl | now left]|].
  match goal with |- context [pump dc (selects ss) ?s0] =>
    destruct (pump_wdir dc (selects ss) s0) as [H1 H2];
    destruct (pump dc (selects ss) s0) as [[r|] s'] end;
    cbn [snd wdir emit] in *; (split; [exact H1 | exact H2]).
Qed.

(** X12. The cursor that a call of [watch] leaves in the record is the one
    it found or the cursor of an event without error that the call
    received: a session never invents a cursor. The fields owned by the
    registry are as before. *)
Theorem watch_cursor_provenance (dc : bool) (ep0 : Endpoint) (ss : session)
  (s : wstate) :
  sameOwned (wdir s) (wdir (watch dc ep0 ss s).2)
  ∧ (order (wdir (watch dc ep0 ss s).2) = order (wdir s)
     ∨ ∃ e, Received e ∈ selects ss ∧ Error e = None
            ∧ Order e = order (wdir (watch dc ep0 ss s).2)).
Proof.
  destruct (watch_wdir dc ep0 ss s) as [Hsame Hcur].
  split; [exact Hsame|].
  destruct Hcur as [Hkept|(e & Hin & Herr & Hord)].
  - now left.
  - right. exists e. now repeat split.
Qed.

Lemma afterFailure_owned msg s : sameOwned (wdir s) (wdir (afterFailure msg s)).
Proof.
  unfold afterFailure. destruct (Contains msg _); cbn -[wrap64 Z.mul];
    destruct (_ >? _); now repeat split.
Qed.

Lemma loop_owned dc ep0 sessions : ∀ s,
  sameOwned (wdir s) (wdir (loop dc ep0 sessions s).2).
Proof.
  induction sessions as [|ss rest IH]; intros s; [apply sameOwned_refl|].
  simpl. pose proof (proj1 (watch_wdir dc ep0 ss s)) as Hw.
  destruct (watch dc ep0 ss s) as [[[[|msg]|]|] s1]; cbn [snd] in *; try exact Hw.
  eapply sameOwned_trans; [exact Hw|].
  eapply sameOwned_trans; [apply afterFailure_owned | apply IH].
Qed.

(** X8. Whatever its sessions do, a watcher leaves [atime], [user], [ep],
    [die] and [dying] of its record as it found them: it writes the cursor
    and the retry interval only. *)
Theorem watcher_keeps_registry_fields (dc : bool) (ep0 : Endpoint)
  (sessions : list session) (s : wstate) :
  sameOwned (wdir s) (wdir (watcher dc ep0 sessions s).2).
Proof.
  unfold watcher.
  pose proof (loop_owned dc ep0 sessions (enter s)) as Hl.
  assert (He : sameOwned (wdir s) (wdir (enter s))).
  { unfold enter. destruct (_ =? _); now repeat split. }
  destruct (loop dc ep0 sessions (enter s)) as [[| |] s']; cbn [snd] in *;
    eapply sameOwned_trans; eauto.
Qed.

End WatcherFrame.

(** ** The requests for a reread *)

Section RereadRequests.
Context {C : Collaborators}.

Lemma handleEvent_result e s : (handleEvent e s).1 = Error e.
Proof.
  destruct (Error e) as [err|] eqn:He.
  - now rewrite (handleEvent_error _ _ _ He).
  - now rewrite (handleEvent_watched _ _ He).
Qed.

(** An error that the loop of [watch] returns is the one of the closed
    stream or was carried by an event of the session. *)
Lemma pump_error_origin dc rs : ∀ s err,
  (pump dc rs s).1 = Ret (Some err) ->
  err = streamClosedErr ∨ ∃ e, Received e ∈ rs ∧ Error e = Some err.
Proof.
  induction rs as [|r rs IH]; intros s err.
  - simpl. destruct dc; discriminate.
  - destruct r as [|e|]; simpl.
    + destruct dc; discriminate.
    + pose proof (handleEvent_result e s) as Hres.
      destruct (handleEvent e s) as [[err'|] s']; cbn [fst] in *.
      * intros [= <-]. right. exists e. split; [left | now symmetry].
      * intros H. destruct (IH _ _ H) as [->|(e' & Hin & He')]; [now left|].
        right. exists e'. split; [now right | exact He'].
    + intros [= <-]. now left.
Qed.

Lemma watch_error_origin dc ep0 ss s err :
  (watch dc ep0 ss s).1 = Ret (Some err) ->
  err = streamClosedErr
  ∨ bindErr ss = Some err
  ∨ watchErr ss = Some err
  ∨ ∃ e, Received e ∈ selects ss ∧ Error e = Some err.
Proof.
  unfold watch.
  destruct (bindErr ss) as [eb|]; [intros [= <-]; auto|].
  destruct (watchErr ss) as [ew|]; [intros [= <-]; auto|].
  match goal with |- context [pump dc (selects ss) ?s0] =>
    pose proof (pump_error_origin dc (selects ss) s0 err) as Hp;
    destruct (pump dc (selects ss) s0) as [[r|] s'] end;
    cbn [fst] in *; [|discriminate].
  intros H. destruct (Hp H) as [->|He]; auto.
Qed.

(** The loop on two lists of sessions in a row: the second list is run
    from where the first left the loop, if it left it looping. *)
Lemma loop_app dc ep0 pre post : ∀ s,
  loop dc ep0 (pre ++ post) s =
    match (loop dc ep0 pre s).1 with
    | Looping => loop dc ep0 post (loop dc ep0 pre s).2
    | _ => loop dc ep0 pre s
    end.
Proof.
  induction pre as [|ss pre IH]; intros s; [reflexivity|].
  cbn [app loop].
  destruct (watch dc ep0 ss s) as [[[[|msg]|]|] s1]; try reflexivity.
  apply IH.
Qed.

(** The cursors that the loop passes to [dir.Watch], and where a -1 among
    them can come from. *)
Lemma loop_reread dc ep0 sessions : ∀ s,
  ∃ cs, watchOrders (wtrace (loop dc ep0 sessions s).2) = watchOrders (wtrace s) ++ cs
    ∧ (-1 ∈ cs ->
       order (wdir s) = -1
       ∨ Exists scriptsReset sessions
       ∨ Exists deliversSentinel sessions).
Proof.
  induction sessions as [|ss rest IH]; intros s.
  { exists []. simpl. rewrite app_nil_r. split; [reflexivity|].
    intros H. inversion H. }
  cbn [loop].
  pose proof (watch_frame dc ep0 ss s) as (_ & Hwo & _).
  pose proof (proj2 (watch_wdir dc ep0 ss s)) as Hcur.
  pose proof (watch_error_origin dc ep0 ss s) as Horig.
  assert (Hfirst : -1 ∈ (if bindErr ss is None then [order (wdir s)] else [])
                   -> order (wdir s) = -1).
  { destruct (bindErr ss); intros Hin; [inversion Hin|].
    apply list_elem_of_singleton in Hin. now symmetry. }
  destruct (watch dc ep0 ss s) as [[[[|msg]|]|] s1]; cbn [fst snd] in *;
    try (eexists; split; [exact Hwo|]; intros Hin; left; now apply Hfirst).
  destruct (IH (afterFailure msg s1)) as (cs' & Hcs' & Hprov).
  destruct (afterFailure_order msg s1) as [Ho Hw1].
  exists ((if bindErr ss is None then [order (wdir s)] else []) ++ cs').
  split; [now rewrite Hcs', Hw1, Hwo, app_assoc|].
  intros Hin. apply elem_of_app in Hin as [Hin|Hin]; [left; now apply Hfirst|].
  destruct (Hprov Hin) as [Hm|[Hx|Hx]].
  - rewrite Ho in Hm. destruct (Contains msg _) eqn:HC.
    + right. left. apply Exists_cons_hd. exists msg. split; [exact HC|].
      destruct (Horig (ErrMsg msg) eq_refl) as [E|[E|[E|E]]]; auto.
      injection E as ->. discriminate HC.
    + destruct Hcur as [Hk|(e & Hr & He & Hoe)].
      * left. congruence.
      * right. right. apply Exists_cons_hd. exists e.
        split; [exact Hr|]. split; [exact He | congruence].
  - right. left. now apply Exists_cons_tl.
  - right. right. now apply Exists_cons_tl.
Qed.

Lemma loop_first_order dc ep0 ss rest s :
  bindErr ss = None ->
  ∃ tl, watchOrders (wtrace (loop dc ep0 (ss :: rest) s).2)
          = watchOrders (wtrace s) ++ order (wdir s) :: tl.
Proof.
  intros Hb. cbn [loop].
  pose proof (watch_frame dc ep0 ss s) as (_ & Hwo & _). rewrite Hb in Hwo.
  destruct (watch dc ep0 ss s) as [[[[|msg]|]|] s1]; cbn [snd] in *;
    try (exists []; exact Hwo).
  destruct (loop_reread dc ep0 rest (afterFailure msg s1)) as (cs & Hcs & _).
  exists cs. rewrite Hcs, (proj2 (afterFailure_order msg s1)), Hwo.
  now rewrite <- app_assoc.
Qed.

Lemma loop_cons_retry dc ep0 ss rest s msg :
  (watch dc ep0 ss s).1 = Ret (Some (ErrMsg msg)) ->
  loop dc ep0 (ss :: rest) s
    = loop dc ep0 rest (afterFailure msg (watch dc ep0 ss s).2).
Proof.
  intros Hr. cbn [loop]. destruct (watch dc ep0 ss s) as [r s1].
  cbn [fst snd] in *. now subst r.
Qed.

Lemma loop_cons_exit dc ep0 ss rest s :
  (watch dc ep0 ss s).1 = Ret None
  ∨ (watch dc ep0 ss s).1 = Ret (Some ErrNotSupported) ->
  loop dc ep0 (ss :: rest) s = (Exited, (watch dc ep0 ss s).2).
Proof.
  intros Hr. cbn [loop]. destruct (watch dc ep0 ss s) as [r s1].
  cbn [fst snd] in *. now destruct Hr as [-> | ->].
Qed.

Lemma watcher_orders dc ep0 sessions s :
  watchOrders (wtrace (watcher dc ep0 sessions s).2)
    = watchOrders (wtrace (loop dc ep0 sessions (enter s)).2).
Proof.
  unfold watcher. destruct (loop dc ep0 sessions (enter s)) as [[| |] s'];
    cbn [snd wtrace emit]; rewrite ?watchOrders_snoc, ?app_nil_r; reflexivity.
Qed.

Lemma enter_order s :
  order (wdir (enter s)) = (if order (wdir s) =? 0 then -1 else order (wdir s)).
Proof. unfold enter. now destruct (_ =? _). Qed.

(** C6, as amended. Over a whole run of the watcher: a call of [dir.Watch]
    is made with cursor -1 only if the cursor of the record was 0 or -1 on
    entry, or a session got an error whose text contains "cannot read log
    at order", or a session received an event without error whose own
    cursor is -1. The watcher puts the cursor at -1 itself in the first two
    cases: the first call of [dir.Watch] has cursor -1 when the cursor was 0
    on entry and the cursor of the record otherwise; and after a session
    that returned an error other than [upspin.ErrNotSupported] the next call
    of [dir.Watch] has cursor -1 when the text of the error contains the
    phrase and the cursor that the session left otherwise. A session that
    returns nil or [upspin.ErrNotSupported] ends the watcher, with no
    further call. *)
Theorem C6_full_reread_requests (dc : bool) (ep0 : Endpoint)
  (sessions : list session) (s : wstate) :
  (∃ cs, watchOrders (wtrace (watcher dc ep0 sessions s).2)
           = watchOrders (wtrace s) ++ cs
     ∧ (-1 ∈ cs ->
        order (wdir s) = 0 ∨ order (wdir s) = -1
        ∨ Exists scriptsReset sessions
        ∨ Exists deliversSentinel sessions))
  ∧ (∀ ss rest, sessions = ss :: rest -> bindErr ss = None ->
       ∃ tl, watchOrders (wtrace (watcher dc ep0 sessions s).2)
               = watchOrders (wtrace s)
                   ++ (if order (wdir s) =? 0 then -1 else order (wdir s)) :: tl)
  ∧ (∀ pre ss next rest s1 msg,
       sessions = pre ++ ss :: next :: rest ->
       loop dc ep0 pre (enter s) = (Looping, s1) ->
       (watch dc ep0 ss s1).1 = Ret (Some (ErrMsg msg)) ->
       bindErr next = None ->
       ∃ tl, watchOrders (wtrace (watcher dc ep0 sessions s).2)
               = watchOrders (wtrace (watch dc ep0 ss s1).2)
                   ++ (if Contains msg "cannot read log at order" then -1
                       else order (wdir (watch dc ep0 ss s1).2)) :: tl)
  ∧ (∀ pre ss rest s1,
       sessions = pre ++ ss :: rest ->
       loop dc ep0 pre (enter s) = (Looping, s1) ->
       (watch dc ep0 ss s1).1 = Ret None
       ∨ (watch dc ep0 ss s1).1 = Ret (Some ErrNotSupported) ->
       watcher dc ep0 sessions s
         = (Exited, emit ACloseDying (watch dc ep0 ss s1).2)).
Proof.
  split; [|split; [|split]].
  - destruct (loop_reread dc ep0 sessions (enter s)) as (cs & Hcs & Hprov).
    exists cs. rewrite watcher_orders, Hcs, wtrace_enter. split; [reflexivity|].
    intros Hin. destruct (Hprov Hin) as [Hm|[Hx|Hx]]; auto.
    rewrite enter_order in Hm.
    destruct (Z.eqb_spec (order (wdir s)) 0); auto.
  - intros ss rest -> Hb.
    destruct (loop_first_order dc ep0 ss rest (enter s) Hb) as [tl Ht].
    exists tl. now rewrite watcher_orders, Ht, wtrace_enter, enter_order.
  - intros pre ss next rest s1 msg -> Hpre Hr Hb.
    rewrite watcher_orders, loop_app, Hpre. cbn [fst snd].
    rewrite (loop_cons_retry _ _ _ _ _ _ Hr).
    destruct (loop_first_order dc ep0 next rest
                (afterFailure msg (watch dc ep0 ss s1).2) Hb) as [tl Ht].
    destruct (afterFailure_order msg (watch dc ep0 ss s1).2) as [Ho Hw].
    exists tl. now rewrite Ht, Hw, Ho.
  - intros pre ss rest s1 -> Hpre Hr.
    unfold watcher. rewrite loop_app, Hpre. cbn [fst snd].
    now rewrite (loop_cons_exit _ _ _ _ _ Hr).
Qed.

End RereadRequests.

(** C6 on a session that the server refuses because the cursor is too old:
    the next call of [dir.Watch] asks for the whole state. *)
Lemma C6_full_reread_requests_witness :
  let ss := mkSession None (Some (ErrMsg "dir: cannot read log at order 5")) [] in
  let next := mkSession None None [] in
  let s := mkW Sample.alice Sample.cache0 [] in
  loop false "E1" [] (enter s) = (Looping, enter s)
  ∧ (watch false "E1" ss (enter s)).1
      = Ret (Some (ErrMsg "dir: cannot read log at order 5"))
  ∧ bindErr next = None
  ∧ ∃ tl, watchOrders (wtrace (watcher false "E1" [ss; next] s).2)
            = [5] ++ -1 :: tl.
Proof.
  intros ss next s.
  assert (Hl : loop false "E1" [] (enter s) = (Looping, enter s)) by reflexivity.
  assert (Hr : (watch false "E1" ss (enter s)).1
               = Ret (Some (ErrMsg "dir: cannot read log at order 5")))
    by reflexivity.
  assert (Hb : bindErr next = None) by reflexivity.
  destruct (C6_full_reread_requests false "E1" [ss; next] s) as (_ & _ & H & _).
  destruct (H [] ss next [] (enter s) _ eq_refl Hl Hr Hb) as [tl Ht].
  exact (conj Hl (conj Hr (conj Hb (ex_intro _ tl Ht)))).
Defined.

(** C6 as the specification words it fails on a third way to -1: the
    record starts at cursor 5, the session records an event whose own cursor
    is -1 and its stream is then closed; no error contains the phrase, and
    the next call of [dir.Watch] is made with -1. *)
Lemma C6_counterexample :
  let s := mkW Sample.alice Sample.cache0 [] in
  let ss := mkSession None None
              [Received (Sample.event "alice@x/foo" (-1) false); StreamClosed] in
  let sessions := [ss; mkSession None None []] in
  order (wdir s) ≠ 0
  ∧ (watch false "E1" ss (enter s)).1
      = Ret (Some (ErrMsg "Watch event stream closed"))
  ∧ Contains "Watch event stream closed" "cannot read log at order" = false
  ∧ ¬ Exists scriptsReset sessions
  ∧ watchOrders (wtrace (watcher false "E1" sessions s).2) = [5; -1].
Proof.
  intros s ss sessions.
  split; [discriminate|]. split; [reflexivity|]. split; [reflexivity|].
  split; [|reflexivity].
  intros H. apply Exists_cons in H as [H|H].
  - destruct H as (msg & _ & [Hb|[Hw|(e & Hin & He)]]); try discriminate.
    apply elem_of_cons in Hin as [Hin|Hin].
    + injection Hin as ->. discriminate.
    + apply elem_of_cons in Hin as [Hin|Hin]; [discriminate | inversion Hin].
  - apply Exists_cons in H as [H|H]; [|inversion H].
    destruct H as (msg & _ & [Hb|[Hw|(e & Hin & He)]]); try discriminate.
    inversion Hin.
Qed.

Section WatcherTraces.
Context {C : Collaborators}.

Lemma count_app f tr tr' : count f (tr ++ tr') = (count f tr + count f tr')%nat.
Proof. unfold count. now rewrite filter_app, length_app. Qed.

Lemma count_filter_action f ext :
  (∀ a, isFilterAction a = true -> f a = false) ->
  Forall (λ a, isFilterAction a = true) ext ->
  count f ext = 0%nat.
Proof.
  intros Hf H. unfold count. induction H as [|a ext Ha _ IH]; [reflexivity|].
  rewrite filter_cons. rewrite decide_False; [exact IH|].
  rewrite (Hf a Ha). exact id.
Qed.

(** What the filter adds to the trace: nothing but wipes, requests and
    flushes, with one flush per request. *)
Lemma handleEvent_trace e s :
  ∃ ext, wtrace (handleEvent e s).2 = wtrace s ++ ext
    ∧ Forall (λ a, isFilterAction a = true) ext
    ∧ count isLogRequest ext = count isFlush ext.
Proof.
  destruct (Error e) as [err|] eqn:He.
  - rewrite (handleEvent_error _ _ _ He). exists []. rewrite app_nil_r.
    split; [reflexivity|]. split; [constructor | reflexivity].
  - rewrite (handleEvent_watched _ _ He).
    destruct (Z.eq_dec (order (wdir s)) (-1)) as [Ho|Ho].
    + rewrite (wipeIfRereading_sentinel _ Ho).
      destruct (watched e _); cbn [snd].
      * rewrite wtrace_applyEvent. cbn [wtrace]. rewrite <- app_assoc.
        eexists. split; [reflexivity|]. split; [repeat constructor | reflexivity].
      * cbn [wtrace]. eexists. split; [reflexivity|].
        split; [repeat constructor | reflexivity].
    + rewrite (wipeIfRereading_other _ Ho).
      destruct (watched e _); cbn [snd].
      * rewrite wtrace_applyEvent.
        eexists. split; [reflexivity|]. split; [repeat constructor | reflexivity].
      * exists []. rewrite app_nil_r.
        split; [reflexivity|]. split; [constructor | reflexivity].
Qed.

Lemma pump_trace dc rs : ∀ s,
  ∃ ext, wtrace (pump dc rs s).2 = wtrace s ++ ext
    ∧ Forall (λ a, isFilterAction a = true) ext
    ∧ count isLogRequest ext = count isFlush ext.
Proof.
  assert (Hnil : ∀ s : wstate, ∃ ext, wtrace s = wtrace s ++ ext
            ∧ Forall (λ a, isFilterAction a = true) ext
            ∧ count isLogRequest ext = count isFlush ext).
  { intros s. exists []. rewrite app_nil_r.
    split; [reflexivity|]. split; [constructor | reflexivity]. }
  induction rs as [|r rs IH]; intros s.
  - simpl. destruct dc; apply Hnil.
  - destruct r as [|e|]; simpl.
    + destruct dc; apply Hnil.
    + destruct (handleEvent_trace e s) as (ext & Ht & Hf & Hc).
      destruct (handleEvent e s) as [[err|] s']; cbn [snd] in *.
      * exists ext. now split.
      * destruct (IH s') as (ext' & Ht' & Hf' & Hc').
        exists (ext ++ ext'). split; [|split].
        -- etransitivity; [exact Ht'|]. now rewrite Ht, <- app_assoc.
        -- now apply Forall_app.
        -- now rewrite !count_app, Hc, Hc'.
    + apply Hnil.
Qed.

(** X18. The trace of one call of [watch]: a bind; then, if the bind
    succeeded, the making of [done] and the call of [dir.Watch] with the root
    of the user and the cursor of the record; then, if that succeeded, the
    actions of the filter; and, if the call returns, the closing of [done]
    as its last action. *)
Theorem watch_trace_shape (dc : bool) (ep0 : Endpoint) (ss : session)
  (s : wstate) :
  ∃ ext,
    Forall (λ a, isFilterAction a = true) ext
    ∧ count isLogRequest ext = count isFlush ext
    ∧ wtrace (watch dc ep0 ss s).2 =
        wtrace s ++
          match bindErr ss, watchErr ss with
          | Some _, _ => [ABind ep0]
          | None, Some _ =>
            [ABind ep0; AMakeDone;
             AWatch (user (wdir s) +:+ "/") (order (wdir s)); ACloseDone]
          | None, None =>
            [ABind ep0; AMakeDone;
             AWatch (user (wdir s) +:+ "/") (order (wdir s))]
              ++ ext
              ++ match (watch dc ep0 ss s).1 with
                 | Ret _ => [ACloseDone]
                 | Parked => []
                 end
          end.
Proof.
  unfold watch.
  destruct (bindErr ss).
  { exists []. split; [constructor|]. split; reflexivity. }
  destruct (watchErr ss).
  { exists []. split; [constructor|]. split; [reflexivity|].
    cbn. now rewrite <- !app_assoc. }
  match goal with |- context [pump dc (selects ss) ?s0] =>
    destruct (pump_trace dc (selects ss) s0) as (ext & Ht & Hf & Hc);
    destruct (pump dc (selects ss) s0) as [[r|] s'] end;
    cbn [fst snd wtrace emit onDir wdir] in *;
    exists ext; (split; [exact Hf|]); (split; [exact Hc|]);
    rewrite Ht, <- !app_assoc, ?app_nil_r; reflexivity.
Qed.

Lemma filter_action_others a :
  isFilterAction a = true ->
  isBind a = false ∧ isSleepAction a = false
  ∧ isMakeDone a = false ∧ isCloseDone a = false.
Proof. destruct a; simpl; intros H; try discriminate; now repeat split. Qed.

Lemma count_snoc f tr a :
  count f (tr ++ [a]) = (count f tr + if f a then 1 else 0)%nat.
Proof.
  rewrite count_app. f_equal. unfold count. rewrite filter_cons.
  destruct (f a); simpl; reflexivity.
Qed.

Lemma count_single f a : count f [a] = if f a then 1%nat else 0%nat.
Proof. unfold count. rewrite filter_cons. now destruct (f a). Qed.

Lemma balanced_trans s1 s2 s3 o1 a1 o2 a2 :
  balanced s1 s2 o1 a1 -> balanced s2 s3 o2 a2 ->
  balanced s1 s3 (o1 + o2) (a1 + a2).
Proof. unfold balanced. intros (A1 & A2 & A3) (B1 & B2 & B3). lia. Qed.

Lemma watch_balanced dc ep0 ss s :
  balanced s (watch dc ep0 ss s).2
    (if (watch dc ep0 ss s).1 is Parked then 1 else 0) 1
  ∧ count isBind (wtrace (watch dc ep0 ss s).2) = S (count isBind (wtrace s)).
Proof.
  unfold watch, balanced.
  destruct (bindErr ss).
  { cbn [fst snd wtrace emit]. rewrite !count_snoc. simpl. lia. }
  destruct (watchErr ss).
  { cbn [fst snd wtrace emit onDir wdir]. rewrite !count_snoc. simpl. lia. }
  match goal with |- context [pump dc (selects ss) ?s0] =>
    destruct (pump_trace dc (selects ss) s0) as (ext & Ht & Hf & Hc);
    destruct (pump dc (selects ss) s0) as [[r|] s'] end;
    cbn [fst snd wtrace emit onDir wdir] in *;
    rewrite ?count_snoc, Ht, !count_app;
    rewrite (count_filter_action isBind ext), (count_filter_action isMakeDone ext),
      (count_filter_action isCloseDone ext), (count_filter_action isSleepAction ext)
      by (exact Hf || (intros a Ha; now destruct (filter_action_others a Ha) as (?&?&?&?)));
    rewrite !count_single; simpl; lia.
Qed.

Lemma afterFailure_trace msg s :
  wtrace (afterFailure msg s) = wtrace s ++ [ASleep (retryInterval (wdir s))].
Proof.
  unfold afterFailure. destruct (Contains msg _); cbn -[wrap64 Z.mul];
    now destruct (_ >? _).
Qed.

Lemma afterFailure_balanced msg s r o :
  balanced s r o 1 -> balanced s (afterFailure msg r) o 0.
Proof.
  unfold balanced. rewrite afterFailure_trace, !count_snoc. simpl. lia.
Qed.

Lemma loop_balanced dc ep0 sessions : ∀ s,
  balanced s (loop dc ep0 sessions s).2
    (if (loop dc ep0 sessions s).1 is Waiting then 1 else 0)
    (if (loop dc ep0 sessions s).1 is Looping then 0 else 1)
  ∧ ((loop dc ep0 sessions s).1 = Looping ->
     count isBind (wtrace (loop dc ep0 sessions s).2)
       = (count isBind (wtrace s) + length sessions)%nat).
Proof.
  induction sessions as [|ss rest IH]; intros s.
  - simpl. unfold balanced. split; [lia|]. intros _. lia.
  - simpl. destruct (watch_balanced dc ep0 ss s) as [Hw Hb].
    destruct (watch dc ep0 ss s) as [[[[|msg]|]|] s1]; cbn [fst snd] in *;
      try (split; [exact Hw | discriminate]).
    destruct (IH (afterFailure msg s1)) as [I1 I2].
    apply (afterFailure_balanced msg) in Hw.
    split.
    + exact (balanced_trans _ _ _ _ _ _ _ Hw I1).
    + intros HL. rewrite (I2 HL), afterFailure_trace, count_snoc, Hb. simpl. lia.
Qed.

Lemma watcher_balanced dc ep0 sessions s :
  balanced s (watcher dc ep0 sessions s).2
    (if (watcher dc ep0 sessions s).1 is Waiting then 1 else 0)
    (if (watcher dc ep0 sessions s).1 is Looping then 0 else 1)
  ∧ ((watcher dc ep0 sessions s).1 = Looping ->
     count isBind (wtrace (watcher dc ep0 sessions s).2)
       = (count isBind (wtrace s) + length sessions)%nat).
Proof.
  unfold watcher.
  destruct (loop_balanced dc ep0 sessions (enter s)) as [H1 H2].
  assert (He : ∀ f, count f (wtrace (enter s)) = count f (wtrace s))
    by (intros f; now rewrite wtrace_enter).
  unfold balanced in *. rewrite !He in H1. rewrite He in H2.
  destruct (loop dc ep0 sessions (enter s)) as [[| |] s']; cbn [fst snd] in *;
    try (split; [exact H1 | exact H2]).
  cbn [wtrace emit]. rewrite !count_snoc. simpl.
  split; [lia | discriminate].
Qed.

(** X10. A watcher binds once per session and sleeps once after each
    session that failed: a watcher that has returned, or waits in a
    [select], has bound once more than it has slept; one that is about to
    call [watch] again has bound as often as it has slept, once for each
    session so far. *)
Theorem watcher_binds_and_sleeps (dc : bool) (ep0 : Endpoint)
  (sessions : list session) (s : wstate) :
  (count isBind (wtrace (watcher dc ep0 sessions s).2)
     + count isSleepAction (wtrace s)
   = count isBind (wtrace s)
     + count isSleepAction (wtrace (watcher dc ep0 sessions s).2)
     + (if (watcher dc ep0 sessions s).1 is Looping then 0 else 1))%nat
  ∧ ((watcher dc ep0 sessions s).1 = Looping ->
     count isBind (wtrace (watcher dc ep0 sessions s).2)
       = (count isBind (wtrace s) + length sessions)%nat).
Proof.
  destruct (watcher_balanced dc ep0 sessions s) as [(_ & _ & H) H'].
  split; [exact H | exact H'].
Qed.

(** X11. Every [done] channel that a watcher has made is closed, except
    the one of the session that is waiting in its [select]: [done] is
    released on every path on which [watch] returns. *)
Theorem watcher_releases_done (dc : bool) (ep0 : Endpoint)
  (sessions : list session) (s : wstate) :
  (count isMakeDone (wtrace (watcher dc ep0 sessions s).2)
     + count isCloseDone (wtrace s)
   = count isMakeDone (wtrace s)
     + count isCloseDone (wtrace (watcher dc ep0 sessions s).2)
     + (if (watcher dc ep0 sessions s).1 is Waiting then 1 else 0))%nat.
Proof. exact (proj1 (proj2 (proj1 (watcher_balanced dc ep0 sessions s)))). Qed.

Lemma flushedAtOnce_app b : flushedAtOnce b = true -> ∀ a,
  (flushedAtOnce a = true -> flushedAtOnce (a ++ b) = true)
  ∧ (∀ x, flushedAtOnce (x :: a) = true -> flushedAtOnce ((x :: a) ++ b) = true).
Proof.
  intros Hb. induction a as [|y a' [IH1 IH2]].
  - split; [intros _; exact Hb|]. intros x. destruct x; simpl; try discriminate;
      intros _; exact Hb.
  - split; [apply IH2|]. intros x.
    destruct x; try (cbn [flushedAtOnce app]; apply IH2); try discriminate.
    destruct y; try discriminate. cbn [flushedAtOnce app]. apply IH1.
Qed.

Lemma flushedAtOnce_snoc a x :
  flushedAtOnce a = true -> flushedAtOnce [x] = true ->
  flushedAtOnce (a ++ [x]) = true.
Proof. intros Ha Hx. now apply (flushedAtOnce_app [x] Hx a). Qed.

Lemma handleEvent_flushes e s :
  ∃ ext, wtrace (handleEvent e s).2 = wtrace s ++ ext
    ∧ flushedAtOnce ext = true.
Proof.
  destruct (Error e) as [err|] eqn:He.
  - rewrite (handleEvent_error _ _ _ He). exists []. now rewrite app_nil_r.
  - rewrite (handleEvent_watched _ _ He).
    destruct (Z.eq_dec (order (wdir s)) (-1)) as [Ho|Ho].
    + rewrite (wipeIfRereading_sentinel _ Ho).
      destruct (watched e _); cbn [snd].
      * rewrite wtrace_applyEvent. cbn [wtrace]. rewrite <- app_assoc.
        eexists. split; reflexivity.
      * cbn [wtrace]. eexists. split; reflexivity.
    + rewrite (wipeIfRereading_other _ Ho).
      destruct (watched e _); cbn [snd].
      * rewrite wtrace_applyEvent. eexists. split; reflexivity.
      * exists []. now rewrite app_nil_r.
Qed.

Lemma pump_flushes dc rs : ∀ s,
  ∃ ext, wtrace (pump dc rs s).2 = wtrace s ++ ext
    ∧ flushedAtOnce ext = true.
Proof.
  assert (Hnil : ∀ s : wstate, ∃ ext, wtrace s = wtrace s ++ ext
                                  ∧ flushedAtOnce ext = true).
  { intros s. exists []. now rewrite app_nil_r. }
  induction rs as [|r rs IH]; intros s.
  - simpl. destruct dc; apply Hnil.
  - destruct r as [|e|]; simpl.
    + destruct dc; apply Hnil.
    + destruct (handleEvent_flushes e s) as (ext & Ht & Hf).
      destruct (handleEvent e s) as [[err|] s']; cbn [snd] in *.
      * now exists ext.
      * destruct (IH s') as (ext' & Ht' & Hf').
        exists (ext ++ ext'). split.
        -- etransitivity; [exact Ht'|]. now rewrite Ht, <- app_assoc.
        -- now apply (flushedAtOnce_app ext' Hf' ext).
    + apply Hnil.
Qed.

Lemma watch_flushes dc ep0 ss s :
  ∃ ext, wtrace (watch dc ep0 ss s).2 = wtrace s ++ ext
    ∧ flushedAtOnce ext = true.
Proof.
  unfold watch.
  destruct (bindErr ss); [eexists; split; reflexivity|].
  destruct (watchErr ss).
  { cbn [snd wtrace emit onDir wdir]. rewrite <- !app_assoc.
    eexists. split; reflexivity. }
  match goal with |- context [pump dc (selects ss) ?s0] =>
    destruct (pump_flushes dc (selects ss) s0) as (ext & Ht & Hf);
    destruct (pump dc (selects ss) s0) as [[r|] s'] end;
    cbn [fst snd wtrace emit onDir wdir] in *; rewrite Ht, <- !app_assoc.
  - eexists. split; [reflexivity|].
    apply (flushedAtOnce_app (ext ++ [ACloseDone])
             (flushedAtOnce_snoc ext ACloseDone Hf eq_refl)
             [ABind ep0; AMakeDone]).
    reflexivity.
  - eexists. split; [reflexivity|].
    apply (flushedAtOnce_app ext Hf [ABind ep0; AMakeDone]). reflexivity.
Qed.

Lemma loop_flushes dc ep0 sessions : ∀ s,
  ∃ ext, wtrace (loop dc ep0 sessions s).2 = wtrace s ++ ext
    ∧ flushedAtOnce ext = true.
Proof.
  induction sessions as [|ss rest IH]; intros s.
  { exists []. simpl. now rewrite app_nil_r. }
  cbn [loop]. destruct (watch_flushes dc ep0 ss s) as (ext & Ht & Hf).
  destruct (watch dc ep0 ss s) as [[[[|msg]|]|] s1]; cbn [snd] in *;
    try (now exists ext).
  destruct (IH (afterFailure msg s1)) as (ext' & Ht' & Hf').
  exists ((ext ++ [ASleep (retryInterval (wdir s1))]) ++ ext'). split.
  - rewrite Ht', afterFailure_trace, Ht, <- !app_assoc. reflexivity.
  - apply (flushedAtOnce_app ext' Hf'). now apply flushedAtOnce_snoc.
Qed.

(** X17. Whatever the sessions deliver, in all that a watcher does each
    call of [logRequestWithOrder] is followed at once by a call of [flush],
    and [flush] is called at no other moment: a request is flushed before
    the next event is taken, before the session returns and before anything
    else happens. Hence requests and flushes are equal in number. *)
Theorem watcher_flushes_every_request (dc : bool) (ep0 : Endpoint)
  (sessions : list session) (s : wstate) :
  (∃ ext, wtrace (watcher dc ep0 sessions s).2 = wtrace s ++ ext
     ∧ flushedAtOnce ext = true)
  ∧ (count isLogRequest (wtrace (watcher dc ep0 sessions s).2)
       + count isFlush (wtrace s)
     = count isLogRequest (wtrace s)
       + count isFlush (wtrace (watcher dc ep0 sessions s).2))%nat.
Proof.
  split; [|exact (proj1 (proj1 (watcher_balanced dc ep0 sessions s)))].
  unfold watcher.
  destruct (loop_flushes dc ep0 sessions (enter s)) as (ext & Ht & Hf).
  rewrite wtrace_enter in Ht.
  destruct (loop dc ep0 sessions (enter s)) as [[| |] s']; cbn [snd] in *;
    try (now exists ext).
  exists (ext ++ [ACloseDying]). cbn [wtrace emit].
  split; [now rewrite Ht, <- app_assoc|]. now apply flushedAtOnce_snoc.
Qed.

End WatcherTraces.

Section WatcherBounds.
Context {C : Collaborators}.

Lemma inRange_initial : inRange initialRetryInterval.
Proof. unfold inRange, initialRetryInterval, maxRetryInterval, Minute, Second. lia. Qed.

(** Doubling an interval of the range does not overflow, and the clamp
    brings it back into the range. *)
Lemma afterFailure_range msg s :
  inRange (retryInterval (wdir s)) ->
  inRange (retryInterval (wdir (afterFailure msg s)))
  ∧ sleeps (wtrace (afterFailure msg s))
      = sleeps (wtrace s) ++ [retryInterval (wdir s)].
Proof.
  intros Hr. rewrite afterFailure_trace, sleeps_snoc. split; [|reflexivity].
  assert (Hw : wrap64 (retryInterval (wdir s) * 2) = retryInterval (wdir s) * 2).
  { unfold wrap64. revert Hr.
    unfold inRange, initialRetryInterval, maxRetryInterval, Minute, Second.
    intros Hr. rewrite Z.mod_small; lia. }
  unfold afterFailure.
  destruct (Contains msg _); cbn -[wrap64 Z.mul]; rewrite Hw;
    destruct (Z.gtb_spec (retryInterval (wdir s) * 2) maxRetryInterval);
    cbn -[Z.mul]; revert Hr;
    unfold inRange, initialRetryInterval, maxRetryInterval, Minute, Second in *;
    lia.
Qed.

Lemma watch_range dc ep0 ss s :
  inRange (retryInterval (wdir s)) ->
  inRange (retryInterval (wdir (watch dc ep0 ss s).2)).
Proof.
  intros Hr. destruct (watch_frame dc ep0 ss s) as (_ & _ & H). rewrite H.
  destruct (established ss); [apply inRange_initial | exact Hr].
Qed.

Lemma loop_range dc ep0 sessions : ∀ s,
  inRange (retryInterval (wdir s)) ->
  inRange (retryInterval (wdir (loop dc ep0 sessions s).2))
  ∧ ∃ l, sleeps (wtrace (loop dc ep0 sessions s).2) = sleeps (wtrace s) ++ l
         ∧ Forall inRange l.
Proof.
  induction sessions as [|ss rest IH]; intros s Hr.
  - simpl. split; [exact Hr|]. exists []. now rewrite app_nil_r.
  - simpl. pose proof (watch_range dc ep0 ss s Hr) as Hw.
    destruct (watch_frame dc ep0 ss s) as (Hs & _ & _).
    destruct (watch dc ep0 ss s) as [[[[|msg]|]|] s1]; cbn [snd] in *;
      try (split; [exact Hw|]; exists []; now rewrite app_nil_r).
    destruct (afterFailure_range msg s1 Hw) as [Hr' Hsl].
    destruct (IH _ Hr') as (I1 & l & I2 & I3).
    split; [exact I1|]. exists (retryInterval (wdir s1) :: l).
    split; [|now constructor].
    rewrite I2, Hsl, Hs, <- app_assoc. reflexivity.
Qed.

(** X9. Whatever the sessions do, every sleep of a watcher lasts between
    10 s and 60 s, and so does the retry interval it leaves in the record:
    the doubling never overflows and never escapes the clamp. *)
Theorem watcher_sleeps_in_range (dc : bool) (ep0 : Endpoint)
  (sessions : list session) (s : wstate) :
  inRange (retryInterval (wdir (watcher dc ep0 sessions s).2))
  ∧ ∃ l, sleeps (wtrace (watcher dc ep0 sessions s).2) = sleeps (wtrace s) ++ l
         ∧ Forall inRange l.
Proof.
  assert (He : inRange (retryInterval (wdir (enter s)))).
  { rewrite enter_interval. apply backoff_range. }
  destruct (loop_range dc ep0 sessions (enter s) He) as (H1 & l & H2 & H3).
  rewrite wtrace_enter in H2. unfold watcher.
  destruct (loop dc ep0 sessions (enter s)) as [[| |] s']; cbn [snd] in *;
    (split; [exact H1|]); exists l; (split; [|exact H3]);
    cbn [wtrace emit]; rewrite ?sleeps_snoc, ?app_nil_r; exact H2.
Qed.

(** X13. When the event stream of an established session is closed after
    events without error, the watcher sleeps and subscribes again, with the
    cursor that the filter reached on those events: the last recorded event
    is where the next session resumes. *)
Theorem watcher_resumes_at_last_cursor (dc : bool) (ep0 : Endpoint)
  (ss next : session) (es : list Event) (s : wstate) :
  established ss = true ->
  selects ss = map Received es ++ [StreamClosed] ->
  Forall (λ e, Error e = None) es ->
  bindErr next = None ->
  watchOrders (wtrace (loop dc ep0 [ss; next] s).2)
    = watchOrders (wtrace s)
        ++ [order (wdir s); order (wdir (feed es (subscribed ep0 s)))].
Proof.
  intros He Hsel Hes Hb.
  unfold established in He.
  destruct (bindErr ss) eqn:Hbs; [discriminate|].
  destruct (watchErr ss) eqn:Hws; [discriminate|].
  cbn [loop].
  pose proof (watch_frame dc ep0 ss s) as (_ & Hwo & _). rewrite Hbs in Hwo.
  rewrite (watch_subscribed _ _ _ _ Hbs Hws), Hsel, (pump_feed _ _ _ _ Hes) in *.
  cbn [pump fst snd] in *. unfold streamClosedErr.
  set (s1 := emit ACloseDone (feed es (subscribed ep0 s))) in *.
  pose proof (watch_frame dc ep0 next (afterFailure "Watch event stream closed" s1))
    as (_ & Hwo' & _).
  rewrite Hb in Hwo'.
  destruct (afterFailure_order "Watch event stream closed" s1) as [Ho Hw1].
  rewrite Hw1, Ho, Hwo in Hwo'. cbn [Contains hasPrefix] in Hwo'.
  destruct (watch dc ep0 next _) as [[[[|msg]|]|] s2]; cbn [snd loop] in *;
    rewrite ?afterFailure_trace, ?watchOrders_snoc, ?app_nil_r,
      Hwo', <- app_assoc; reflexivity.
Qed.

End WatcherBounds.

(** ** strings.Contains and the reset of the cursor *)

Lemma append_cons c a b : String c a +:+ b = String c (a +:+ b).
Proof. reflexivity. Qed.

Lemma append_empty b : "" +:+ b = b.
Proof. reflexivity. Qed.

Lemma hasPrefix_spec pre : ∀ s,
  hasPrefix s pre = true <-> ∃ b, s = pre +:+ b.
Proof.
  induction pre as [|a pre IH]; intros s.
  - split; [intros _; now exists s | intros _; now destruct s].
  - destruct s as [|c s']; cbn [hasPrefix].
    + split; [discriminate|]. intros [b Hb]. rewrite append_cons in Hb.
      discriminate.
    + destruct (Ascii.eqb_spec a c) as [->|Hac].
      * rewrite IH. split; intros [b Hb]; exists b.
        -- rewrite append_cons. congruence.
        -- rewrite append_cons in Hb. congruence.
      * split; [discriminate|]. intros [b Hb]. rewrite append_cons in Hb.
        congruence.
Qed.

Lemma Contains_spec sub : ∀ s,
  Contains s sub = true <-> ∃ a b, s = a +:+ sub +:+ b.
Proof.
  induction s as [|c s' IH]; cbn [Contains]; rewrite orb_true_iff.
  - split.
    + intros [H|H]; [|discriminate]. apply hasPrefix_spec in H as [b Hb].
      exists "", b. now rewrite append_empty.
    + intros (a & b & H). left. apply hasPrefix_spec.
      destruct a; [exists b; now rewrite append_empty in H|].
      rewrite append_cons in H. discriminate.
  - split.
    + intros [H|H].
      * apply hasPrefix_spec in H as [b Hb]. exists "", b.
        now rewrite append_empty.
      * apply IH in H as (a & b & H). exists (String c a), b.
        rewrite append_cons. now rewrite H.
    + intros (a & b & H). destruct a as [|c' a'].
      * left. apply hasPrefix_spec. exists b. now rewrite append_empty in H.
      * right. apply IH. rewrite append_cons in H. injection H as _ H.
        now exists a', b.
Qed.

Section WatcherWipes.
Context {C : Collaborators}.

(** X14. After a session that failed with message [msg], the watcher sets
    the cursor to -1 when "cannot read log at order" occurs somewhere in
    [msg], and leaves it alone when it occurs nowhere. *)
Theorem reset_iff_phrase_occurs (msg : string) (s : wstate) :
  ((∃ a b, msg = a +:+ "cannot read log at order" +:+ b) ->
     order (wdir (afterFailure msg s)) = -1)
  ∧ ((¬ ∃ a b, msg = a +:+ "cannot read log at order" +:+ b) ->
     order (wdir (afterFailure msg s)) = order (wdir s)).
Proof.
  destruct (afterFailure_order msg s) as [Ho _]. rewrite Ho.
  pose proof (Contains_spec "cannot read log at order" msg) as Hc.
  destruct (Contains msg _).
  - split; [reflexivity|]. intros Hn. exfalso. apply Hn, Hc. reflexivity.
  - split; [|reflexivity]. intros He. apply Hc in He. discriminate.
Qed.

Lemma wipes_snoc tr a : wipes (tr ++ [a]) = (wipes tr + if isWipe a then 1 else 0)%nat.
Proof.
  rewrite wipes_app. f_equal. unfold wipes. rewrite filter_cons.
  now destruct (isWipe a).
Qed.

Lemma handleEvent_no_wipe e s :
  order (wdir s) ≠ -1 ->
  wipes (wtrace (handleEvent e s).2) = wipes (wtrace s).
Proof.
  intros Ho. destruct (Error e) as [err|] eqn:He.
  - now rewrite (handleEvent_error _ _ _ He).
  - rewrite (handleEvent_watched _ _ He), (wipeIfRereading_other _ Ho).
    destruct (watched e _); [|reflexivity].
    cbn [snd]. rewrite wtrace_applyEvent.
    change (wtrace s ++ [?a; ?b]) with (wtrace s ++ [a] ++ [b]).
    rewrite app_assoc, !wipes_snoc. simpl. lia.
Qed.

Lemma pump_no_wipe dc rs : ∀ s,
  order (wdir s) ≠ -1 ->
  (∀ e, Received e ∈ rs -> Order e ≠ -1) ->
  wipes (wtrace (pump dc rs s).2) = wipes (wtrace s)
  ∧ order (wdir (pump dc rs s).2) ≠ -1.
Proof.
  induction rs as [|r rs IH]; intros s Ho Hall.
  - simpl. now destruct dc.
  - destruct r as [|e|]; simpl.
    + now destruct dc.
    + pose proof (handleEvent_no_wipe e s Ho) as Hw.
      assert (Ho' : order (wdir (handleEvent e s).2) ≠ -1).
      { destruct (handleEvent_wdir e s) as [Hd|[_ Hd]]; rewrite Hd; [exact Ho|].
        simpl. apply Hall. left. }
      destruct (handleEvent e s) as [[err|] s']; cbn [snd] in *; [now split|].
      destruct (IH s' Ho') as [I1 I2].
      { intros e' He'. apply Hall. now right. }
      split; [congruence | exact I2].
    + now split.
Qed.

(** X15. A session that starts with a cursor other than -1 and receives
    no event with cursor -1 never calls [wipeLog], and ends with a cursor
    other than -1: the cache is wiped only when a reread was asked for. *)
Theorem watch_wipes_only_when_rereading (dc : bool) (ep0 : Endpoint)
  (ss : session) (s : wstate) :
  order (wdir s) ≠ -1 ->
  (∀ e, Received e ∈ selects ss -> Order e ≠ -1) ->
  wipes (wtrace (watch dc ep0 ss s).2) = wipes (wtrace s)
  ∧ order (wdir (watch dc ep0 ss s).2) ≠ -1.
Proof.
  intros Ho Hall. unfold watch.
  destruct (bindErr ss);
    [cbn [snd wtrace wdir emit]; rewrite wipes_snoc; simpl; split; [lia | exact Ho]|].
  destruct (watchErr ss).
  { cbn [snd wtrace wdir emit]. rewrite !wipes_snoc. simpl. split; [lia | exact Ho]. }
  match goal with |- context [pump dc (selects ss) ?s0] =>
    destruct (pump_no_wipe dc (selects ss) s0 Ho Hall) as [H1 H2];
    destruct (pump dc (selects ss) s0) as [[r|] s'] end;
    cbn [snd wtrace wdir emit onDir] in *;
    rewrite ?wipes_snoc, H1, !wipes_snoc; simpl; (split; [lia | exact H2]).
Qed.

(** X16. A session that starts with the cursor at -1 and whose first event
    is recorded, all events carrying cursors other than -1, calls [wipeLog]
    exactly once: the reread wipes the cache once, before its first event. *)
Theorem reread_wipes_once (dc : bool) (ep0 : Endpoint) (ss : session)
  (e0 : Event) (rs : list ready) (s : wstate) :
  order (wdir s) = -1 ->
  established ss = true ->
  selects ss = Received e0 :: rs ->
  Error e0 = None ->
  treatedAsRelevant e0 (subscribed ep0 s) ->
  Order e0 ≠ -1 ->
  (∀ e, Received e ∈ rs -> Order e ≠ -1) ->
  wipes (wtrace (watch dc ep0 ss s).2) = S (wipes (wtrace s)).
Proof.
  intros Ho He Hsel He0 Hrel Ho0 Hall.
  unfold established in He.
  destruct (bindErr ss) eqn:Hb; [discriminate|].
  destruct (watchErr ss) eqn:Hw; [discriminate|].
  rewrite (watch_subscribed _ _ _ _ Hb Hw), Hsel, (pump_received _ _ _ _ He0).
  apply (treatedAsRelevant_watched _ _ He0) in Hrel.
  assert (Hs0 : order (wdir (subscribed ep0 s)) = -1) by exact Ho.
  assert (Hh : wipes (wtrace (handleEvent e0 (subscribed ep0 s)).2)
               = S (wipes (wtrace s))
               ∧ order (wdir (handleEvent e0 (subscribed ep0 s)).2) ≠ -1).
  { rewrite (handleEvent_watched _ _ He0), Hrel. cbn [snd].
    rewrite wtrace_applyEvent, (wipeIfRereading_sentinel _ Hs0).
    cbn [wtrace subscribed emit onDir wdir].
    split; [|exact Ho0].
    change (?l ++ [?a; ?b]) with (l ++ [a] ++ [b]).
    rewrite !app_assoc, !wipes_snoc. simpl. lia. }
  destruct Hh as [Hh1 Hh2].
  destruct (pump_no_wipe dc rs _ Hh2 Hall) as [H1 _].
  destruct (pump dc rs _) as [[r|] s']; cbn [snd wtrace emit] in *;
    rewrite ?wipes_snoc, H1, Hh1; simpl; lia.
Qed.

End WatcherWipes.

(** * Further properties of the registry *)

Section RegistryMore.
Context {C : Collaborators}.

Lemma Inv2_new : Inv2 newProxiedDirs.
Proof.
  split; simpl; intros *; rewrite lookup_empty; discriminate.
Qed.

(** Writing a record whose channels satisfy the invariant against the rest
    of the world. *)
Lemma Inv2_store w u d' :
  Inv2 w ->
  user d' = u ->
  (∀ c, die d' = Some c ->
     (c ∉ closedChans w)
     ∧ ∃ y, dying d' = Some y
            ∧ (y ∈ closedChans w ∨ ∃ g, g ∈ watchers w ∧ g_dying g = y)) ->
  (∀ u2 d2 c, m (p w) !! u2 = Some d2 -> u2 ≠ u ->
     (die d' = Some c -> die d2 ≠ Some c)
     ∧ (dying d' = Some c -> dying d2 ≠ Some c)) ->
  Inv2 (store u d' w).
Proof.
  intros HI Hu Hp Hd. split; simpl.
  - intros u0 d0. destruct (decide (u = u0)) as [<-|Hne].
    + rewrite lookup_insert_eq. now intros [= <-].
    + rewrite lookup_insert_ne by exact Hne. apply (inv_user w HI).
  - intros u0 d0 c. destruct (decide (u = u0)) as [<-|Hne].
    + rewrite lookup_insert_eq. intros [= <-]. apply Hp.
    + rewrite lookup_insert_ne by exact Hne. apply (inv_pair w HI).
  - intros u1 u2 d1 d2 c.
    destruct (decide (u = u1)) as [<-|Hne1]; destruct (decide (u = u2)) as [<-|Hne2].
    + intros _ _ H. now contradiction H.
    + rewrite lookup_insert_eq, lookup_insert_ne by exact Hne2.
      intros [= <-] H2 _. apply (Hd u2 d2 c H2). congruence.
    + rewrite lookup_insert_eq, lookup_insert_ne by exact Hne1.
      intros H1 [= <-] _. destruct (Hd u1 d1 c H1) as [A B]; [congruence|].
      split; intros E1 E2; [now apply A in E2 | now apply B in E2].
    + rewrite !lookup_insert_ne by assumption. apply (inv_distinct w HI).
Qed.

Lemma closeDir_fields exits d w d1 w1 :
  closeDir exits d w = Some (d1, w1) -> d1 = set_die None d.
Proof.
  unfold closeDir. destruct (die d) as [c|] eqn:Hc.
  - destruct (isClosed c w); [discriminate|].
    destruct (dying d) as [y|]; [|discriminate].
    destruct (isClosed y _); [now intros [= <- <-]|].
    destruct (exits && _); [|discriminate]. now intros [= <- <-].
  - intros [= <- <-]. destruct d. simpl in Hc. now subst.
Qed.

(** What [d.close()] does to the closed channels and the watchers: it
    closes [die], and [dying] when a watcher has to return for it, and takes
    the watchers that own that [dying] out of the world. *)
Lemma closeDir_world exits d w d1 w1 :
  closeDir exits d w = Some (d1, w1) ->
  (closedChans w1 = closedChans w ∧ watchers w1 = watchers w ∧ die d = None)
  ∨ (∃ c y, die d = Some c ∧ dying d = Some y
       ∧ ((closedChans w1 = c :: closedChans w ∧ watchers w1 = watchers w)
          ∨ (closedChans w1 = y :: c :: closedChans w
             ∧ watchers w1 = filter (λ g, negb (holds y g)) (watchers w)))).
Proof.
  unfold closeDir. destruct (die d) as [c|]; [|intros [= <- <-]; now left].
  destruct (isClosed c w); [discriminate|].
  destruct (dying d) as [y|]; [|discriminate].
  destruct (isClosed y _).
  - intros [= <- <-]. right. exists c, y.
    split; [reflexivity|]. split; [reflexivity|]. now left.
  - destruct (exits && _); [|discriminate]. intros [= <- <-]. right. exists c, y.
    split; [reflexivity|]. split; [reflexivity|]. now right.
Qed.

Lemma closeDir_store_Inv exits u d w d1 w1 :
  Inv w -> m (p w) !! u = Some d ->
  closeDir exits d w = Some (d1, w1) ->
  Inv (store u d1 w1).
Proof.
  intros HI Hl Hcd.
  destruct (closeDir_Inv _ _ _ _ _ _ HI Hl Hcd) as (HI1 & Hnone & -> & Hp1 & Hn1).
  apply Inv_store; [exact HI1| |].
  - intros g Hg Hu. rewrite watchersOf_nil in Hnone. now destruct (Hnone g Hg).
  - rewrite Hn1. destruct (inv_ok w HI u d Hl) as [_ H2].
    split; [discriminate | exact H2].
Qed.

Lemma closeDir_store_Inv2 exits u d w d1 w1 :
  Inv w -> Inv2 w -> m (p w) !! u = Some d ->
  closeDir exits d w = Some (d1, w1) ->
  Inv2 (store u d1 w1).
Proof.
  intros HI HJ Hl Hcd.
  pose proof (closeDir_fields _ _ _ _ _ Hcd) as ->.
  pose proof (closeDir_p _ _ _ _ _ Hcd) as Hp.
  destruct (closeDir_world _ _ _ _ _ Hcd) as [(Hc & Hw & Hdie)|(c & y & Hdie & Hdy & Hcw)].
  - split; simpl; rewrite ?Hp, ?Hc, ?Hw.
    + intros u0 d0. destruct (decide (u = u0)) as [<-|Hne].
      * rewrite lookup_insert_eq. intros [= <-]. apply (inv_user w HJ u d Hl).
      * rewrite lookup_insert_ne by exact Hne. apply (inv_user w HJ).
    + intros u0 d0 c0. destruct (decide (u = u0)) as [<-|Hne].
      * rewrite lookup_insert_eq. intros [= <-]. discriminate.
      * rewrite lookup_insert_ne by exact Hne. apply (inv_pair w HJ).
    + intros u1 u2 d1 d2 c0 H1 H2 Hne.
      assert (E : ∀ u0 d0, <[u:=set_die None d]> (m (p w)) !! u0 = Some d0 ->
                  ∃ d0', m (p w) !! u0 = Some d0' ∧ die d0 = die d0'
                         ∧ dying d0 = dying d0').
      { intros u0 d0. destruct (decide (u = u0)) as [<-|Hn].
        - rewrite lookup_insert_eq. intros [= <-]. exists d. simpl. now rewrite Hdie.
        - rewrite lookup_insert_ne by exact Hn. intros H. now exists d0. }
      destruct (E _ _ H1) as (d1' & L1 & A1 & B1).
      destruct (E _ _ H2) as (d2' & L2 & A2 & B2).
      rewrite A1, A2, B1, B2. apply (inv_distinct w HJ u1 u2 d1' d2' c0 L1 L2 Hne).
  - destruct (inv_ok w HI u d Hl) as [Hokc Hoky].
    destruct (Hokc c Hdie) as [_ Hceven]. destruct (Hoky y Hdy) as [_ Hyodd].
    assert (Hsub : ∀ x, x ∈ closedChans w1 -> x = y ∨ x = c ∨ x ∈ closedChans w).
    { intros x Hx. destruct Hcw as [[Hc _]|[Hc _]]; rewrite Hc in Hx.
      - apply elem_of_cons in Hx as [->|Hx]; auto.
      - apply elem_of_cons in Hx as [->|Hx]; [auto|].
        apply elem_of_cons in Hx as [->|Hx]; auto. }
    assert (Hsup : ∀ x, x ∈ closedChans w -> x ∈ closedChans w1).
    { intros x Hx. destruct Hcw as [[Hc _]|[Hc _]]; rewrite Hc;
        repeat (apply elem_of_cons; right); exact Hx. }
    assert (Hkeep : ∀ g, g ∈ watchers w -> g_dying g ≠ y -> g ∈ watchers w1).
    { intros g Hg Hne. destruct Hcw as [[_ Hw]|[_ Hw]]; rewrite Hw; [exact Hg|].
      apply list_elem_of_filter. split; [|exact Hg].
      unfold holds. rewrite bool_decide_eq_false_2 by exact Hne. exact I. }
    split; simpl; rewrite ?Hp.
    + intros u0 d0. destruct (decide (u = u0)) as [<-|Hne].
      * rewrite lookup_insert_eq. intros [= <-]. apply (inv_user w HJ u d Hl).
      * rewrite lookup_insert_ne by exact Hne. apply (inv_user w HJ).
    + intros u0 d0 c0. destruct (decide (u = u0)) as [<-|Hne].
      { rewrite lookup_insert_eq. intros [= <-]. discriminate. }
      rewrite lookup_insert_ne by exact Hne. intros H0 Hd0.
      destruct (inv_pair w HJ u0 d0 c0 H0 Hd0) as [Hnc (y0 & Hy0 & Hor)].
      destruct (inv_distinct w HJ u u0 d d0 c Hl H0 Hne) as [Dd _].
      destruct (inv_distinct w HJ u u0 d d0 y Hl H0 Hne) as [_ Dy].
      destruct (inv_ok w HI u0 d0 H0) as [Hok0 _].
      destruct (Hok0 c0 Hd0) as [_ Hc0even].
      split.
      * intros Hin. apply Hsub in Hin as [->|[->|Hin]].
        -- congruence.
        -- now apply (Dd Hdie).
        -- contradiction.
      * exists y0. split; [exact Hy0|].
        destruct Hor as [Hor|(g & Hg & Hgy)]; [left; now apply Hsup|].
        right. exists g. split; [|exact Hgy]. apply Hkeep; [exact Hg|].
        rewrite Hgy. intros ->. now apply (Dy Hdy).
    + intros u1 u2 d1 d2 c0 H1 H2 Hne.
      assert (E : ∀ u0 d0, <[u:=set_die None d]> (m (p w)) !! u0 = Some d0 ->
                  ∃ d0', m (p w) !! u0 = Some d0'
                         ∧ (die d0 = die d0' ∨ die d0 = None)
                         ∧ dying d0 = dying d0').
      { intros u0 d0. destruct (decide (u = u0)) as [<-|Hn].
        - rewrite lookup_insert_eq. intros [= <-]. exists d. simpl. auto.
        - rewrite lookup_insert_ne by exact Hn. intros H. exists d0. auto. }
      destruct (E _ _ H1) as (d1' & L1 & A1 & B1).
      destruct (E _ _ H2) as (d2' & L2 & A2 & B2).
      destruct (inv_distinct w HJ u1 u2 d1' d2' c0 L1 L2 Hne) as [Dd Dy].
      rewrite B1, B2. split; [|exact Dy].
      destruct A1 as [A1|A1]; destruct A2 as [A2|A2]; rewrite A1, A2;
        try discriminate; exact Dd.
Qed.

Lemma startWatcher_Inv2 u ep0 d w :
  Inv w -> Inv2 w -> user d = u ->
  Inv2 (store u (startWatcher u ep0 d w).1 (startWatcher u ep0 d w).2).
Proof.
  intros HI HJ Hu.
  assert (Hfresh : ∀ u2 d2, m (p w) !! u2 = Some d2 ->
            die d2 ≠ Some (nextChan w) ∧ dying d2 ≠ Some (S (nextChan w))).
  { intros u2 d2 H2. destruct (inv_ok w HI u2 d2 H2) as [A B]. split.
    - intros E. destruct (A _ E). lia.
    - intros E. destruct (B _ E). lia. }
  split; simpl.
  - intros u0 d0. destruct (decide (u = u0)) as [<-|Hne].
    + rewrite lookup_insert_eq. now intros [= <-].
    + rewrite lookup_insert_ne by exact Hne. apply (inv_user w HJ).
  - intros u0 d0 c. destruct (decide (u = u0)) as [<-|Hne].
    + rewrite lookup_insert_eq. intros [= <-]. simpl. intros [= <-]. split.
      * intros Hin. apply (inv_closed w HI) in Hin. lia.
      * eexists. split; [reflexivity|]. right.
        exists (mkG u ep0 (nextChan w) (S (nextChan w))). split; [|reflexivity].
        apply elem_of_app. right. left.
    + rewrite lookup_insert_ne by exact Hne. intros H0 Hd0.
      destruct (inv_pair w HJ u0 d0 c H0 Hd0) as [Hnc (y & Hy & Hor)].
      split; [exact Hnc|]. exists y. split; [exact Hy|].
      destruct Hor as [Hor|(g & Hg & Hgy)]; [now left|].
      right. exists g. split; [|exact Hgy]. apply elem_of_app. now left.
  - intros u1 u2 d1 d2 c.
    destruct (decide (u = u1)) as [<-|Hne1]; destruct (decide (u = u2)) as [<-|Hne2].
    + intros _ _ H. now contradiction H.
    + rewrite lookup_insert_eq, lookup_insert_ne by exact Hne2.
      intros [= <-] H2 _. destruct (Hfresh u2 d2 H2) as [A B]. simpl.
      split; intros [= <-]; assumption.
    + rewrite lookup_insert_eq, lookup_insert_ne by exact Hne1.
      intros H1 [= <-] _. destruct (Hfresh u1 d1 H1) as [A B]. simpl.
      split; intros E [= <-]; [now apply A | now apply B].
    + rewrite !lookup_insert_ne by assumption. apply (inv_distinct w HJ).
Qed.

Lemma store_store u d d' w : store u d (store u d' w) = store u d w.
Proof. unfold store. simpl. now rewrite insert_insert_eq. Qed.

Lemma touch_store u ep0 now d d' w :
  touch u ep0 now d (store u d' w) = touch u ep0 now d w.
Proof.
  unfold touch. destruct (die (set_atime now d)).
  - apply store_store.
  - unfold startWatcher, store, record. simpl. now rewrite insert_insert_eq.
Qed.

(** The last lines of [proxyFor] keep the second invariant when the record
    they work on carries the channels of the stored one. *)
Lemma touch_Inv2 u ep0 now d d0 w :
  Inv w -> Inv2 w ->
  user d = u ->
  m (p w) !! u = Some d0 -> die d = die d0 -> dying d = dying d0 ->
  Inv2 (touch u ep0 now d w).
Proof.
  intros HI HJ Hu Hl Hd Hy. unfold touch.
  destruct (die (set_atime now d)) as [c0|] eqn:E.
  - apply Inv2_store; [exact HJ | exact Hu | |].
    + intros c Hc. simpl in Hc. rewrite Hd in Hc.
      destruct (inv_pair w HJ u d0 c Hl Hc) as [A (y & B & Hor)].
      split; [exact A|]. exists y. simpl. rewrite Hy. now split.
    + intros u2 d2 c H2 Hne. simpl. rewrite Hd, Hy.
      apply (inv_distinct w HJ u u2 d0 d2 c Hl H2). congruence.
  - now apply startWatcher_Inv2.
Qed.

Lemma proxyFor_Inv2 exits n ep0 now w w' :
  Inv w -> Inv2 w -> proxyFor exits n ep0 now w = Some w' -> Inv2 w'.
Proof.
  intros HI HJ. destruct (closing (p w)) eqn:Hc.
  { unfold proxyFor. rewrite Hc. now intros [= <-]. }
  destruct (Parse n) as [u|] eqn:Hp.
  2:{ unfold proxyFor. rewrite Hc, Hp. intros [= <-].
      destruct HJ as [A B D]. now split. }
  rewrite (proxyFor_unfold _ _ _ _ _ _ Hc Hp).
  destruct (m (p w) !! u) as [d|] eqn:Hl.
  - pose proof (inv_user w HJ u d Hl) as Hu.
    destruct (bool_decide (ep d ≠ ep0)).
    + destruct (closeDir exits d w) as [[d1 w1]|] eqn:Hcd; [|discriminate].
      intros [= <-].
      pose proof (closeDir_store_Inv _ _ _ _ _ _ HI Hl Hcd) as HI1.
      pose proof (closeDir_store_Inv2 _ _ _ _ _ _ HI HJ Hl Hcd) as HJ1.
      rewrite <- (touch_store u ep0 now (set_ep ep0 d1) d1 w1).
      apply (touch_Inv2 _ _ _ _ d1); try assumption; try reflexivity.
      * rewrite (closeDir_fields _ _ _ _ _ Hcd). exact Hu.
      * simpl. apply lookup_insert_eq.
    + intros [= <-]. now apply (touch_Inv2 _ _ _ _ d).
  - intros [= <-].
    rewrite <- (touch_store u ep0 now (set_ep ep0 (zeroDir u)) (zeroDir u) w).
    apply (touch_Inv2 _ _ _ _ (zeroDir u)); try reflexivity.
    + apply Inv_store; [exact HI| |split; discriminate].
      intros g Hg Hgu. destruct (inv_rec w HI g Hg) as [(d0 & Hl0 & _) _].
      rewrite Hgu in Hl0. congruence.
    + apply Inv2_store; [exact HJ | reflexivity | discriminate |].
      intros u2 d2 c _ _. split; discriminate.
    + simpl. apply lookup_insert_eq.
Qed.

Lemma setOrder_Inv2 n o w : Inv2 w -> Inv2 (setOrder n o w).
Proof.
  intros HJ. unfold setOrder. destruct (closing (p w)); [exact HJ|].
  destruct (Parse n) as [u|]; [|destruct HJ as [A B D]; now split].
  destruct (m (p w) !! u) as [d|] eqn:Hl; simpl.
  - apply Inv2_store; [exact HJ | exact (inv_user w HJ u d Hl) | |].
    + intros c Hc. apply (inv_pair w HJ u d c Hl Hc).
    + intros u2 d2 c H2 Hne. apply (inv_distinct w HJ u u2 d d2 c Hl H2). congruence.
  - apply Inv2_store; [exact HJ | reflexivity | discriminate |].
    intros u2 d2 c _ _. split; discriminate.
Qed.

Lemma closeAll_Inv2 exits us : ∀ w w',
  Inv w -> Inv2 w -> closeAll exits us w = Some w' -> Inv2 w'.
Proof.
  induction us as [|u us IH]; intros w w' HI HJ; simpl.
  - now intros [= <-].
  - destruct (m (p w) !! u) as [d|] eqn:Hl; [|now apply IH].
    destruct (closeDir (exits u) d w) as [[d1 w1]|] eqn:Hcd; [|discriminate].
    apply IH.
    + exact (closeDir_store_Inv _ _ _ _ _ _ HI Hl Hcd).
    + exact (closeDir_store_Inv2 _ _ _ _ _ _ HI HJ Hl Hcd).
Qed.

Lemma close_Inv2 exits w w' :
  Inv w -> Inv2 w -> close exits w = Some w' -> Inv2 w'.
Proof.
  intros HI HJ. unfold close. destruct (closing (p w)); [now intros [= <-]|].
  apply closeAll_Inv2; [now apply Inv_setClosing|].
  destruct HJ as [A B D]. now split.
Qed.

Lemma watcherReturns_Inv2 c w : Inv w -> Inv2 w -> Inv2 (watcherReturns c w).
Proof.
  intros HI HJ. unfold watcherReturns.
  destruct (existsb (holds c) (watchers w)) eqn:Hex; [|exact HJ].
  apply existsb_exists in Hex as (g0 & Hg0 & Hh0).
  apply list_elem_of_In in Hg0.
  unfold holds in Hh0. apply bool_decide_eq_true in Hh0.
  assert (Hodd : Nat.even c = false).
  { destruct (inv_rec w HI g0 Hg0) as [(d & Hl & _ & Hdy) _].
    destruct (inv_ok w HI _ _ Hl) as [_ H2]. rewrite Hh0 in Hdy.
    now destruct (H2 c Hdy). }
  split; simpl.
  - apply (inv_user w HJ).
  - intros u d c0 Hl Hd.
    destruct (inv_pair w HJ u d c0 Hl Hd) as [Hnc (y & Hy & Hor)].
    destruct (inv_ok w HI u d Hl) as [Hok _]. destruct (Hok c0 Hd) as [_ Hev].
    split.
    + intros Hin. apply elem_of_cons in Hin as [->|Hin]; [congruence|contradiction].
    + exists y. split; [exact Hy|].
      destruct Hor as [Hor|(g & Hg & Hgy)]; [left; now right|].
      destruct (decide (y = c)) as [->|Hne]; [left; left|].
      right. exists g. split; [|exact Hgy]. apply list_elem_of_filter.
      split; [|exact Hg]. unfold holds.
      rewrite bool_decide_eq_false_2 by congruence. exact I.
  - apply (inv_distinct w HJ).
Qed.

Lemma step_Inv2 o w w' : Inv w -> Inv2 w -> step o w = Some w' -> Inv2 w'.
Proof.
  intros HI HJ. destruct o as [exits n ep0 now|n o|exits|c]; simpl.
  - now apply proxyFor_Inv2.
  - intros [= <-]. now apply setOrder_Inv2.
  - now apply close_Inv2.
  - intros [= <-]. now apply watcherReturns_Inv2.
Qed.

Lemma run_Inv2 ops : ∀ w w', Inv w -> Inv2 w -> run ops w = Some w' -> Inv2 w'.
Proof.
  induction ops as [|o ops IH]; intros w w' HI HJ; simpl.
  - now intros [= <-].
  - destruct (step o w) as [w1|] eqn:Hs; [|discriminate].
    apply IH; [now apply (step_Inv o w) | now apply (step_Inv2 o w)].
Qed.

Lemma reachable_Inv2 w : reachable w -> Inv2 w.
Proof. intros [ops H]. apply (run_Inv2 ops _ _ Inv_new Inv2_new H). Qed.

End RegistryMore.

Section RegistryExtras.
Context {C : Collaborators}.

Lemma touch_p u ep0 now d w :
  closing (p (touch u ep0 now d w)) = closing (p w)
  ∧ ∀ u', u' ≠ u -> m (p (touch u ep0 now d w)) !! u' = m (p w) !! u'.
Proof.
  unfold touch. destruct (die (set_atime now d)); simpl;
    (split; [reflexivity|]); intros u' Hne; now rewrite lookup_insert_ne.
Qed.

Lemma proxyFor_closing exits n ep0 now w w' :
  proxyFor exits n ep0 now w = Some w' -> closing (p w') = closing (p w).
Proof.
  destruct (closing (p w)) eqn:Hc.
  { unfold proxyFor. rewrite Hc. intros [= <-]. exact Hc. }
  destruct (Parse n) as [u|] eqn:Hp.
  2:{ unfold proxyFor. rewrite Hc, Hp. intros [= <-]. exact Hc. }
  rewrite (proxyFor_unfold _ _ _ _ _ _ Hc Hp).
  destruct (m (p w) !! u) as [d|].
  - destruct (bool_decide (ep d ≠ ep0)).
    + destruct (closeDir exits d w) as [[d1 w1]|] eqn:Hcd; [|discriminate].
      intros [= <-]. rewrite (proj1 (touch_p _ _ _ _ _)).
      now rewrite (closeDir_p _ _ _ _ _ Hcd).
    + intros [= <-]. now rewrite (proj1 (touch_p _ _ _ _ _)).
  - intros [= <-]. now rewrite (proj1 (touch_p _ _ _ _ _)).
Qed.

Lemma setOrder_closing n o w : closing (p (setOrder n o w)) = closing (p w).
Proof.
  unfold setOrder. destruct (closing (p w)) eqn:Hc; [exact Hc|].
  now destruct (Parse n).
Qed.

(** After the loop of [close], a record either has no [die] channel or was
    not among the users visited and is as it was. *)
Lemma closeAll_records exits us : ∀ w w',
  closeAll exits us w = Some w' ->
  ∀ u d', m (p w') !! u = Some d' ->
    die d' = None ∨ ((u ∉ us) ∧ m (p w) !! u = Some d').
Proof.
  induction us as [|u0 us IH]; intros w w'; simpl.
  - intros [= <-] u d' Hl. right. split; [apply not_elem_of_nil | exact Hl].
  - destruct (m (p w) !! u0) as [d|] eqn:Hl0.
    + destruct (closeDir (exits u0) d w) as [[d1 w1]|] eqn:Hcd; [|discriminate].
      intros H u d' Hl. destruct (IH _ _ H u d' Hl) as [Hn|[Hni Hl']]; [now left|].
      simpl in Hl'. destruct (decide (u0 = u)) as [<-|Hne].
      * rewrite lookup_insert_eq in Hl'. injection Hl' as <-.
        left. now rewrite (closeDir_fields _ _ _ _ _ Hcd).
      * rewrite lookup_insert_ne in Hl' by exact Hne.
        rewrite (closeDir_p _ _ _ _ _ Hcd) in Hl'. right. split; [|exact Hl'].
        intros Hin. apply elem_of_cons in Hin as [->|Hin]; [now apply Hne|].
        contradiction.
    + intros H u d' Hl. destruct (IH _ _ H u d' Hl) as [Hn|[Hni Hl']]; [now left|].
      right. split; [|exact Hl'].
      intros Hin. apply elem_of_cons in Hin as [->|Hin]; [congruence|contradiction].
Qed.

Lemma step_Closed o w w' : Closed w -> step o w = Some w' -> Closed w'.
Proof.
  intros HC. destruct o as [exits n ep0 now|n o|exits|c]; simpl.
  - intros H Hc'. pose proof (proxyFor_closing _ _ _ _ _ _ H) as E.
    rewrite Hc' in E. unfold proxyFor in H. rewrite <- E in H.
    injection H as <-. now apply HC.
  - intros [= <-] Hc'. rewrite setOrder_closing in Hc'.
    unfold setOrder. rewrite Hc'. now apply HC.
  - unfold close. destruct (closing (p w)) eqn:Hc.
    + intros [= <-]. exact HC.
    + intros H _ u d' Hl.
      destruct (closeAll_records _ _ _ _ H u d' Hl) as [Hn|[Hni Hl']]; [exact Hn|].
      exfalso. apply Hni. simpl in Hl'.
      apply (list_elem_of_fmap_2 fst (map_to_list (m (p w))) (u, d')).
      now apply elem_of_map_to_list.
  - intros [= <-]. unfold watcherReturns.
    destruct (existsb _ _); [|exact HC]. exact HC.
Qed.

Lemma reachable_Closed w : reachable w -> Closed w.
Proof.
  intros [ops H]. revert H.
  assert (G : ∀ w0, Closed w0 -> run ops w0 = Some w -> Closed w).
  { induction ops as [|o ops IH]; intros w0 H0; simpl.
    - now intros [= <-].
    - destruct (step o w0) as [w1|] eqn:Hs; [|discriminate].
      apply IH. now apply (step_Closed o w0). }
  apply G. intros Hc. discriminate.
Qed.

Lemma closing_no_watchers w :
  reachable w -> closing (p w) = true -> watchers w = [].
Proof.
  intros Hr Hc. pose proof (reachable_Closed w Hr Hc) as HC.
  destruct (watchers w) as [|g l] eqn:Hw; [reflexivity|].
  destruct (inv_rec w (reachable_Inv w Hr) g) as [(d & Hl & Hd & _) _].
  { rewrite Hw. left. }
  rewrite (HC _ _ Hl) in Hd. discriminate.
Qed.

(** X1. Once [close] has returned, nothing runs: in every world that the
    registry can reach with [closing] set, there is no watcher, and no record
    has a [die] channel. *)
Theorem closed_registry_runs_nothing (w : world) :
  reachable w ->
  closing (p w) = true ->
  watchers w = [] ∧ ∀ u d, m (p w) !! u = Some d -> die d = None.
Proof.
  intros Hr Hc. split; [now apply closing_no_watchers|].
  exact (reachable_Closed w Hr Hc).
Qed.

(** X2. A registry on which [close] has returned is frozen: every further
    sequence of calls of [proxyFor], [setOrder] and [close] returns and
    leaves the world exactly as it was. *)
Theorem closed_registry_is_frozen (w : world) (ops : list op) :
  reachable w ->
  closing (p w) = true ->
  run ops w = Some w.
Proof.
  intros Hr Hc.
  pose proof (closing_no_watchers w Hr Hc) as Hw.
  induction ops as [|o ops IH]; [reflexivity|].
  simpl. assert (Hs : step o w = Some w).
  { destruct o as [exits n ep0 now|n o|exits|c]; simpl.
    - unfold proxyFor. now rewrite Hc.
    - unfold setOrder. now rewrite Hc.
    - unfold close. now rewrite Hc.
    - unfold watcherReturns. now rewrite Hw. }
  now rewrite Hs.
Qed.

(** The record that the last lines of [proxyFor] leave under the user. *)
Lemma touch_record u ep0 now d w :
  ∃ d', m (p (touch u ep0 now d w)) !! u = Some d'
    ∧ atime d' = now ∧ ep d' = ep d ∧ order d' = order d
    ∧ user d' = user d ∧ is_Some (die d').
Proof.
  unfold touch. destruct (die (set_atime now d)) as [c|] eqn:E; simpl;
    eexists; rewrite lookup_insert_eq; (split; [reflexivity|]); simpl;
    repeat split; try reflexivity; eauto.
Qed.

(** How [proxyFor] ends, in a registry that is not closing and for a name
    that parses: with the last lines run on a record that has the requested
    endpoint and the cursor that the map held for the user, 0 if none. *)
Lemma proxyFor_touch exits n ep0 now w w' u :
  closing (p w) = false -> Parse n = Some u ->
  proxyFor exits n ep0 now w = Some w' ->
  ∃ d w1, w' = touch u ep0 now d w1
    ∧ ep d = ep0
    ∧ order d = order (default (zeroDir u) (m (p w) !! u)).
Proof.
  intros Hc Hp. rewrite (proxyFor_unfold _ _ _ _ _ _ Hc Hp).
  destruct (m (p w) !! u) as [d|] eqn:Hl.
  - destruct (bool_decide (ep d ≠ ep0)) eqn:Hb.
    + destruct (closeDir exits d w) as [[d1 w1]|] eqn:Hcd; [|discriminate].
      intros [= <-]. exists (set_ep ep0 d1), w1. split; [reflexivity|].
      split; [reflexivity|]. now rewrite (closeDir_fields _ _ _ _ _ Hcd).
    + intros [= <-]. exists d, w. split; [reflexivity|]. split; [|reflexivity].
      apply bool_decide_eq_false in Hb. now apply dec_stable.
  - intros [= <-]. exists (set_ep ep0 (zeroDir u)), w. now repeat split.
Qed.

(** X3. After a call of [proxyFor] that returned, the record of the user
    has the requested endpoint, the time of the call and a [die] channel; a
    second call for the same user and endpoint returns and writes [atime]
    only: it starts no watcher, makes and closes no channel, and adds
    nothing to the history. *)
Theorem proxyFor_twice_starts_one_watcher (exits : bool) (n : PathName)
  (ep0 : Endpoint) (t1 : Z) (w w1 : world) (u : UserName) :
  closing (p w) = false ->
  Parse n = Some u ->
  proxyFor exits n ep0 t1 w = Some w1 ->
  ∃ d1, m (p w1) !! u = Some d1
    ∧ ep d1 = ep0 ∧ atime d1 = t1 ∧ is_Some (die d1)
    ∧ ∀ exits' n' t2, Parse n' = Some u ->
        proxyFor exits' n' ep0 t2 w1 = Some (store u (set_atime t2 d1) w1).
Proof.
  intros Hc Hp H.
  pose proof (proxyFor_closing _ _ _ _ _ _ H) as Hc1. rewrite Hc in Hc1.
  destruct (proxyFor_touch _ _ _ _ _ _ _ Hc Hp H) as (d & w0 & -> & Hep & _).
  destruct (touch_record u ep0 t1 d w0) as (d1 & Hl & Ht & He & _ & _ & [c Hd]).
  exists d1. split; [exact Hl|]. split; [congruence|]. split; [exact Ht|].
  split; [now exists c|].
  intros exits' n' t2 Hp'.
  rewrite (proxyFor_unfold _ _ _ _ _ _ Hc1 Hp'), Hl.
  rewrite bool_decide_eq_false_2 by (intros Hne; apply Hne; congruence).
  unfold touch. simpl. now rewrite Hd.
Qed.

(** X4. In a registry that is not closing, [setOrder] for a name that
    parses files the cursor under the user, creating the record if there is
    none and otherwise changing nothing else in it; the records of other
    users, the watchers, the channels and the history are untouched; and a
    second [setOrder] for the same name overwrites the first. *)
Theorem setOrder_files_the_cursor (n : PathName) (o1 o2 : Z) (w : world)
  (u : UserName) :
  closing (p w) = false ->
  Parse n = Some u ->
  m (p (setOrder n o2 w)) !! u
    = Some (set_order o2 (default (zeroDir u) (m (p w) !! u)))
  ∧ (∀ u', u' ≠ u -> m (p (setOrder n o2 w)) !! u' = m (p w) !! u')
  ∧ (watchers (setOrder n o2 w) = watchers w
     ∧ hist (setOrder n o2 w) = hist w
     ∧ closedChans (setOrder n o2 w) = closedChans w
     ∧ nextChan (setOrder n o2 w) = nextChan w)
  ∧ setOrder n o2 (setOrder n o1 w) = setOrder n o2 w.
Proof.
  intros Hc Hp.
  assert (E : ∀ o w0, closing (p w0) = false ->
            setOrder n o w0
              = store u (set_order o (default (zeroDir u) (m (p w0) !! u))) w0).
  { intros o w0 Hc0. unfold setOrder. now rewrite Hc0, Hp. }
  rewrite !(E _ w Hc). split; [apply lookup_insert_eq|].
  split; [intros u' Hne; simpl; now rewrite lookup_insert_ne|].
  split; [now repeat split|].
  rewrite E by exact Hc. simpl. rewrite lookup_insert_eq. simpl.
  unfold store. simpl. now rewrite insert_insert_eq.
Qed.

Lemma watcher_first_cursor dc ep0 ss s :
  bindErr ss = None ->
  watchOrders (wtrace (watcher dc ep0 [ss] s).2)
    = watchOrders (wtrace s)
        ++ [if order (wdir s) =? 0 then -1 else order (wdir s)].
Proof.
  intros Hb. unfold watcher. cbn [loop].
  pose proof (watch_frame dc ep0 ss (enter s)) as (_ & Hw & _).
  rewrite Hb, wtrace_enter in Hw.
  assert (Ho : order (wdir (enter s))
               = if order (wdir s) =? 0 then -1 else order (wdir s)).
  { unfold enter. now destruct (_ =? _). }
  rewrite Ho in Hw.
  destruct (watch dc ep0 ss (enter s)) as [[[[|msg]|]|] s1]; cbn [snd] in *;
    cbn [wtrace emit]; rewrite ?watchOrders_snoc, ?app_nil_r; try exact Hw.
  now rewrite (proj2 (afterFailure_order msg s1)).
Qed.

(** X5. The cursor filed before any watcher is started is where the watch
    starts: in a world that the registry can reach and in which the user has
    no [die] channel (no watcher was ever started for the user, as when the
    log is replayed), [setOrder] followed by [proxyFor] for the same name
    leaves the record with the filed cursor and starts the one watcher of the
    user, and that watcher makes its first call of [dir.Watch] with the
    filed cursor, or with -1 if it is 0. *)
Theorem filed_cursor_starts_the_watch (exits : bool) (n : PathName)
  (ep0 : Endpoint) (now o : Z) (w w' : world) (u : UserName) :
  reachable w ->
  closing (p w) = false ->
  Parse n = Some u ->
  (∀ d0, m (p w) !! u = Some d0 -> die d0 = None) ->
  proxyFor exits n ep0 now (setOrder n o w) = Some w' ->
  watchersOf u w = []
  ∧ ∃ d c1 c2, m (p w') !! u = Some d
      ∧ order d = o
      ∧ die d = Some c1 ∧ dying d = Some c2
      ∧ watchersOf u w' = [mkG u ep0 c1 c2]
      ∧ ∀ dc ss l, bindErr ss = None ->
          watchOrders (wtrace (watcher dc ep0 [ss] (mkW d l [])).2)
            = [if o =? 0 then -1 else o].
Proof.
  intros Hr Hc Hp Hidle H.
  pose proof (Inv_idle w u (reachable_Inv w Hr) Hidle) as Hnone.
  split; [exact Hnone|].
  set (ds := set_order o (default (zeroDir u) (m (p w) !! u))).
  assert (Hds : die ds = None).
  { subst ds. simpl. destruct (m (p w) !! u) as [d0|] eqn:Hl; simpl;
      [now apply Hidle | reflexivity]. }
  assert (E : setOrder n o w = store u ds w).
  { unfold setOrder. now rewrite Hc, Hp. }
  rewrite E in H.
  assert (Hc' : closing (p (store u ds w)) = false) by exact Hc.
  rewrite (proxyFor_unfold _ _ _ _ _ _ Hc' Hp) in H.
  assert (Hl : m (p (store u ds w)) !! u = Some ds) by apply lookup_insert_eq.
  rewrite Hl in H.
  assert (Hcd : closeDir exits ds (store u ds w) = Some (ds, store u ds w)).
  { unfold closeDir. now rewrite Hds. }
  rewrite Hcd in H.
  assert (Ht : ∃ dX, w' = touch u ep0 now dX (store u ds w)
                 ∧ die dX = None ∧ order dX = o).
  { destruct (bool_decide (ep ds ≠ ep0)); injection H as <-.
    - exists (set_ep ep0 ds). now repeat split.
    - exists ds. now repeat split. }
  destruct Ht as (dX & -> & HdX & HoX).
  unfold touch. cbn [die set_atime]. rewrite HdX.
  eexists _, (nextChan w), (S (nextChan w)).
  split; [apply lookup_insert_eq|].
  split; [exact HoX|]. split; [reflexivity|]. split; [reflexivity|].
  split.
  - unfold watchersOf in *. simpl. rewrite filter_app, Hnone. simpl.
    rewrite filter_cons. simpl. now rewrite decide_True.
  - intros dc ss l Hb. rewrite (watcher_first_cursor _ _ _ _ Hb). simpl.
    now rewrite HoX.
Qed.

(** With a watcher that returns once its [die] is closed, [d.close()]
    returns: in a world that satisfies the invariant it never closes a closed
    channel and never receives from a nil one. *)
Lemma closeDir_obedient u d w :
  Inv2 w -> m (p w) !! u = Some d -> is_Some (closeDir true d w).
Proof.
  intros HJ Hl. unfold closeDir. destruct (die d) as [c|] eqn:Hd; [|eauto].
  destruct (inv_pair w HJ u d c Hl Hd) as [Hnc (y & Hy & Hor)].
  unfold isClosed at 1. rewrite bool_decide_eq_false_2 by exact Hnc.
  rewrite Hy. destruct (isClosed y _) eqn:Hyc; [eauto|].
  assert (Hex : existsb (holds y) (watchers w) = true).
  { destruct Hor as [Hin|(g & Hg & Hgy)].
    - unfold isClosed in Hyc. apply bool_decide_eq_false in Hyc.
      exfalso. apply Hyc. simpl. now right.
    - apply existsb_exists. exists g. split; [now apply list_elem_of_In|].
      unfold holds. now apply bool_decide_eq_true. }
  simpl. rewrite Hex. eauto.
Qed.

Lemma closeAll_obedient us : ∀ w,
  Inv w -> Inv2 w -> is_Some (closeAll (λ _, true) us w).
Proof.
  induction us as [|u us IH]; intros w HI HJ; simpl; [eauto|].
  destruct (m (p w) !! u) as [d|] eqn:Hl; [|now apply IH].
  destruct (closeDir_obedient u d w HJ Hl) as [[d1 w1] Hcd]. rewrite Hcd.
  apply IH.
  - exact (closeDir_store_Inv _ _ _ _ _ _ HI Hl Hcd).
  - exact (closeDir_store_Inv2 _ _ _ _ _ _ HI HJ Hl Hcd).
Qed.

(** X6. In every world that the registry can reach, [proxyFor] and
    [close] return whenever the watchers they stop return once their [die]
    is closed: the handshake never closes a channel twice and never waits
    on a nil channel or on a [dying] that nobody will close. *)
Theorem handshake_completes (w : world) :
  reachable w ->
  (∀ n ep0 now, is_Some (proxyFor true n ep0 now w))
  ∧ is_Some (close (λ _, true) w).
Proof.
  intros Hr. pose proof (reachable_Inv w Hr) as HI.
  pose proof (reachable_Inv2 w Hr) as HJ. split.
  - intros n ep0 now. unfold proxyFor.
    destruct (closing (p w)); [eauto|].
    destruct (Parse n) as [u|]; [|eauto].
    destruct (m (p w) !! u) as [d|] eqn:Hl.
    + destruct (bool_decide (ep d ≠ ep0)).
      * destruct (closeDir_obedient u d w HJ Hl) as [[d1 w1] Hcd]. rewrite Hcd.
        destruct (die _); [eauto|]. destruct (startWatcher _ _ _ _). eauto.
      * destruct (die _); [eauto|]. destruct (startWatcher _ _ _ _). eauto.
    + destruct (die _); [eauto|]. destruct (startWatcher _ _ _ _). eauto.
  - unfold close. destruct (closing (p w)); [eauto|].
    apply closeAll_obedient; [now apply Inv_setClosing|].
    destruct HJ as [A B D]. now split.
Qed.

Lemma filter_filter_same {A} (P Q : A -> Prop)
  `{∀ x, Decision (P x)} `{∀ x, Decision (Q x)} (l : list A) :
  (∀ x, x ∈ l -> P x -> Q x) ->
  filter P (filter Q l) = filter P l.
Proof.
  induction l as [|x l IH]; intros Hpq; [reflexivity|].
  assert (IH' : filter P (filter Q l) = filter P l).
  { apply IH. intros y Hy. apply Hpq. now right. }
  rewrite (filter_cons Q). destruct (decide (Q x)) as [Hq|Hq].
  - rewrite !filter_cons. destruct (decide (P x)); now rewrite IH'.
  - rewrite filter_cons. destruct (decide (P x)) as [Hp|Hp]; [|exact IH'].
    exfalso. apply Hq, Hpq; [left | exact Hp].
Qed.

Lemma closeDir_others exits u d w d1 w1 u' :
  Inv w -> Inv2 w -> m (p w) !! u = Some d ->
  closeDir exits d w = Some (d1, w1) ->
  u' ≠ u ->
  watchersOf u' w1 = watchersOf u' w.
Proof.
  intros HI HJ Hl Hcd Hne. unfold watchersOf.
  destruct (closeDir_world _ _ _ _ _ Hcd)
    as [(_ & Hw & _)|(c & y & Hdie & Hdy & [[_ Hw]|[_ Hw]])];
    rewrite Hw; try reflexivity.
  apply filter_filter_same. intros g Hg Hu.
  unfold holds. rewrite bool_decide_eq_false_2; [exact I|].
  destruct (inv_rec w HI g Hg) as [(d' & Hl' & _ & Hdy') _].
  rewrite Hu in Hl'.
  destruct (inv_distinct w HJ u u' d d' y Hl Hl') as [_ D]; [congruence|].
  intros E. apply (D Hdy). congruence.
Qed.

Lemma touch_others u ep0 now d w u' :
  u' ≠ u -> watchersOf u' (touch u ep0 now d w) = watchersOf u' w.
Proof.
  intros Hne. unfold touch, watchersOf.
  destruct (die (set_atime now d)); simpl; [reflexivity|].
  rewrite filter_app, filter_cons. simpl.
  rewrite decide_False by congruence. now rewrite app_nil_r.
Qed.

(** X7. A call of [proxyFor] concerns one user: the records and the
    watchers of every other user are after the call what they were before,
    also when the call stops a watcher and starts another. *)
Theorem proxyFor_leaves_other_users (exits : bool) (n : PathName)
  (ep0 : Endpoint) (now : Z) (w w' : world) (u u' : UserName) :
  reachable w ->
  Parse n = Some u ->
  u' ≠ u ->
  proxyFor exits n ep0 now w = Some w' ->
  m (p w') !! u' = m (p w) !! u'
  ∧ watchersOf u' w' = watchersOf u' w.
Proof.
  intros Hr Hp Hne. pose proof (reachable_Inv w Hr) as HI.
  pose proof (reachable_Inv2 w Hr) as HJ.
  destruct (closing (p w)) eqn:Hc.
  { unfold proxyFor. rewrite Hc. now intros [= <-]. }
  rewrite (proxyFor_unfold _ _ _ _ _ _ Hc Hp).
  destruct (m (p w) !! u) as [d|] eqn:Hl.
  - destruct (bool_decide (ep d ≠ ep0)).
    + destruct (closeDir exits d w) as [[d1 w1]|] eqn:Hcd; [|discriminate].
      intros [= <-].
      rewrite (proj2 (touch_p _ _ _ _ _) u' Hne), (touch_others _ _ _ _ _ _ Hne).
      rewrite (closeDir_p _ _ _ _ _ Hcd).
      split; [reflexivity|]. exact (closeDir_others _ _ _ _ _ _ _ HI HJ Hl Hcd Hne).
    + intros [= <-].
      now rewrite (proj2 (touch_p _ _ _ _ _) u' Hne), (touch_others _ _ _ _ _ _ Hne).
  - intros [= <-].
    now rewrite (proj2 (touch_p _ _ _ _ _) u' Hne), (touch_others _ _ _ _ _ _ Hne).
Qed.

Lemma closeAll_keeps exits us u : ∀ w w',
  closeAll exits us w = Some w' ->
  is_Some (m (p w) !! u) -> is_Some (m (p w') !! u).
Proof.
  induction us as [|u0 us IH]; intros w w'; simpl; [now intros [= <-]|].
  destruct (m (p w) !! u0) as [d|]; [|apply IH].
  destruct (closeDir (exits u0) d w) as [[d1 w1]|] eqn:Hcd; [|discriminate].
  intros H Hs. apply (IH _ _ H). simpl.
  rewrite (closeDir_p _ _ _ _ _ Hcd), lookup_insert.
  destruct (decide (u0 = u)); [eauto | exact Hs].
Qed.

Lemma step_keeps o w w' u :
  step o w = Some w' -> is_Some (m (p w) !! u) -> is_Some (m (p w') !! u).
Proof.
  destruct o as [exits n ep0 now|n o|exits|c]; simpl.
  - destruct (closing (p w)) eqn:Hc.
    { unfold proxyFor. rewrite Hc. now intros [= <-]. }
    destruct (Parse n) as [u0|] eqn:Hp.
    2:{ unfold proxyFor. rewrite Hc, Hp. now intros [= <-]. }
    intros H Hs.
    destruct (decide (u = u0)) as [->|Hne].
    + destruct (proxyFor_touch _ _ _ _ _ _ _ Hc Hp H) as (d & w1 & -> & _).
      destruct (touch_record u0 ep0 now d w1) as (d' & Hl & _). eauto.
    + revert H. rewrite (proxyFor_unfold _ _ _ _ _ _ Hc Hp).
      destruct (m (p w) !! u0) as [d|].
      * destruct (bool_decide (ep d ≠ ep0)).
        -- destruct (closeDir exits d w) as [[d1 w1]|] eqn:Hcd; [|discriminate].
           intros [= <-]. rewrite (proj2 (touch_p _ _ _ _ _) u Hne).
           now rewrite (closeDir_p _ _ _ _ _ Hcd).
        -- intros [= <-]. now rewrite (proj2 (touch_p _ _ _ _ _) u Hne).
      * intros [= <-]. now rewrite (proj2 (touch_p _ _ _ _ _) u Hne).
  - intros [= <-]. unfold setOrder. destruct (closing (p w)); [auto|].
    destruct (Parse n) as [u0|]; [|auto]. simpl. rewrite lookup_insert.
    destruct (decide (u0 = u)); eauto.
  - unfold close. destruct (closing (p w)); [now intros [= <-]|].
    intros H Hs. exact (closeAll_keeps _ _ _ _ _ H Hs).
  - intros [= <-]. unfold watcherReturns. now destruct (existsb _ _).
Qed.

(** X19. Records are never removed: a user that has a record keeps one
    through every further sequence of calls that return. *)
Theorem records_persist (w w' : world) (ops : list op) (u : UserName) :
  run ops w = Some w' ->
  is_Some (m (p w) !! u) ->
  is_Some (m (p w') !! u).
Proof.
  revert w. induction ops as [|o ops IH]; intros w; simpl.
  - now intros [= <-].
  - destruct (step o w) as [w1|] eqn:Hst; [|discriminate].
    intros H Hs. apply (IH _ H). now apply (step_keeps o w).
Qed.

Lemma watch_prefix dc ep0 ss s :
  bindErr ss = None ->
  ∃ tl, wtrace (watch dc ep0 ss s).2
          = wtrace s ++ [ABind ep0; AMakeDone;
                         AWatch (user (wdir s) +:+ "/") (order (wdir s))] ++ tl.
Proof.
  intros Hb. unfold watch. rewrite Hb.
  destruct (watchErr ss).
  { exists [ACloseDone]. cbn. now rewrite <- !app_assoc. }
  match goal with |- context [pump dc (selects ss) ?s0] =>
    destruct (pump_trace dc (selects ss) s0) as (ext & Ht & _);
    destruct (pump dc (selects ss) s0) as [[r|] s'] end;
    cbn [fst snd wtrace emit onDir wdir] in *.
  - exists (ext ++ [ACloseDone]). rewrite Ht, <- !app_assoc. reflexivity.
  - exists ext. rewrite Ht, <- !app_assoc. reflexivity.
Qed.

(** X20. In every world that the registry can reach, a record is filed
    under its own user, so the session of a watcher on that record asks
    [dir.Watch] for the tree of that user, [user/], from the cursor of the
    record. *)
Theorem watch_is_rooted_at_the_user (w : world) (u : UserName) (d : proxiedDir) :
  reachable w ->
  m (p w) !! u = Some d ->
  user d = u
  ∧ ∀ dc ep0 ss l, bindErr ss = None ->
      ∃ tl, wtrace (watch dc ep0 ss (mkW d l [])).2
              = [ABind ep0; AMakeDone; AWatch (u +:+ "/") (order d)] ++ tl.
Proof.
  intros Hr Hl. pose proof (inv_user w (reachable_Inv2 w Hr) u d Hl) as Hu.
  split; [exact Hu|]. intros dc ep0 ss l Hb.
  destruct (watch_prefix dc ep0 ss (mkW d l []) Hb) as [tl Ht].
  exists tl. rewrite Ht. simpl. now rewrite Hu.
Qed.

End RegistryExtras.

(** ** The further properties on concrete runs *)

(** The three sample registries are reachable. *)
Lemma reachable_after_one : reachable (Runs.after Runs.one).
Proof. now exists Runs.one. Defined.
Lemma reachable_after_two : reachable (Runs.after Runs.two).
Proof. now exists Runs.two. Defined.
Lemma reachable_after_shut : reachable (Runs.after Runs.shut).
Proof. now exists Runs.shut. Defined.

(** X1 on a registry shut down after one registration. *)
Lemma closed_registry_runs_nothing_witness :
  closing (p (Runs.after Runs.shut)) = true
  ∧ watchers (Runs.after Runs.shut) = [].
Proof.
  split; [reflexivity|].
  exact (proj1 (closed_registry_runs_nothing (Runs.after Runs.shut)
                  reachable_after_shut eq_refl)).
Defined.

(** X2 on the same registry: three further calls, no change. *)
Lemma closed_registry_is_frozen_witness :
  let ops := [OSetOrder "alice@x/foo" 7; OProxyFor true "bob@y/notes" "E2" 9;
              OClose (λ _, false)] in
  closing (p (Runs.after Runs.shut)) = true
  ∧ run ops (Runs.after Runs.shut) = Some (Runs.after Runs.shut).
Proof.
  intros ops. split; [reflexivity|].
  exact (closed_registry_is_frozen (Runs.after Runs.shut) ops
           reachable_after_shut eq_refl).
Defined.

(** X3 on a fresh registry: the second registration of the user, under another
    path and at a later time, leaves the watchers as they were. *)
Lemma proxyFor_twice_starts_one_watcher_witness :
  closing (p newProxiedDirs) = false
  ∧ Parse "alice@x/foo" = Some "alice@x"
  ∧ proxyFor true "alice@x/foo" "E1" 5 newProxiedDirs = Some (Runs.after Runs.one)
  ∧ watchers (default newProxiedDirs
                (proxyFor false "alice@x/bar" "E1" 9 (Runs.after Runs.one)))
      = watchers (Runs.after Runs.one).
Proof.
  destruct (proxyFor_twice_starts_one_watcher (C := Sample.collaborators)
              true "alice@x/foo" "E1" 5 newProxiedDirs (Runs.after Runs.one)
              "alice@x" eq_refl eq_refl eq_refl)
    as (d1 & _ & _ & _ & _ & H).
  repeat (split; [reflexivity|]).
  now rewrite (H false "alice@x/bar" 9 eq_refl).
Defined.

(** X4 on a registry that holds a record for the user. *)
Lemma setOrder_files_the_cursor_witness :
  closing (p (Runs.after Runs.one)) = false
  ∧ Parse "alice@x/foo" = Some "alice@x"
  ∧ m (p (setOrder "alice@x/foo" 42 (Runs.after Runs.one))) !! "alice@x"
      = Some (set_order 42 (set_dying (Some 1%nat) (set_die (Some 0%nat)
                (set_atime 5 (set_ep "E1" (zeroDir "alice@x")))))).
Proof.
  repeat (split; [reflexivity|]).
  exact (proj1 (setOrder_files_the_cursor (C := Sample.collaborators)
                  "alice@x/foo" 0 42 (Runs.after Runs.one) "alice@x"
                  eq_refl eq_refl)).
Defined.

(** X5 on a fresh registry: cursor 42 filed, then the user registered. *)
Lemma filed_cursor_starts_the_watch_witness :
  let w' := default newProxiedDirs
              (proxyFor true "alice@x/foo" "E1" 5
                 (setOrder "alice@x/foo" 42 newProxiedDirs)) in
  reachable newProxiedDirs
  ∧ closing (p newProxiedDirs) = false
  ∧ Parse "alice@x/foo" = Some "alice@x"
  ∧ (∀ d0, m (p newProxiedDirs) !! "alice@x" = Some d0 -> die d0 = None)
  ∧ ∃ d c1 c2, m (p w') !! "alice@x" = Some d ∧ order d = 42
      ∧ watchersOf "alice@x" w' = [mkG "alice@x" "E1" c1 c2].
Proof.
  intros w'.
  assert (Hr : reachable newProxiedDirs) by now exists [].
  assert (Hidle : ∀ d0, m (p newProxiedDirs) !! "alice@x" = Some d0 -> die d0 = None)
    by (intros d0 H0; discriminate H0).
  destruct (filed_cursor_starts_the_watch (C := Sample.collaborators)
              true "alice@x/foo" "E1" 5 42 newProxiedDirs w' "alice@x"
              Hr eq_refl eq_refl Hidle eq_refl)
    as (_ & d & c1 & c2 & Hl & Ho & Hd & Hy & Hw & _).
  refine (conj Hr (conj eq_refl (conj eq_refl (conj Hidle _)))).
  exists d, c1, c2. exact (conj Hl (conj Ho Hw)).
Defined.

(** X6 on a registry with one running watcher. *)
Lemma handshake_completes_witness :
  is_Some (proxyFor true "alice@x/foo" "E2" 9 (Runs.after Runs.one))
  ∧ is_Some (close (λ _, true) (Runs.after Runs.one)).
Proof.
  destruct (handshake_completes (Runs.after Runs.one) reachable_after_one)
    as [H1 H2].
  exact (conj (H1 "alice@x/foo" "E2" 9) H2).
Defined.

(** X7 on a registry with two users: the endpoint of one changes, the other
    keeps its record and its watcher. *)
Lemma proxyFor_leaves_other_users_witness :
  let w' := default newProxiedDirs
              (proxyFor true "alice@x/foo" "E3" 9 (Runs.after Runs.two)) in
  Parse "alice@x/foo" = Some "alice@x"
  ∧ "bob@y" ≠ "alice@x"
  ∧ proxyFor true "alice@x/foo" "E3" 9 (Runs.after Runs.two) = Some w'
  ∧ m (p w') !! "bob@y" = m (p (Runs.after Runs.two)) !! "bob@y"
  ∧ watchersOf "bob@y" w' = watchersOf "bob@y" (Runs.after Runs.two).
Proof.
  intros w'.
  assert (Hp : Parse "alice@x/foo" = Some "alice@x") by reflexivity.
  assert (Hne : "bob@y" ≠ "alice@x") by discriminate.
  assert (Hw : proxyFor true "alice@x/foo" "E3" 9 (Runs.after Runs.two) = Some w')
    by (vm_compute; reflexivity).
  destruct (proxyFor_leaves_other_users (C := Sample.collaborators)
              true "alice@x/foo" "E3" 9 (Runs.after Runs.two) w'
              "alice@x" "bob@y" reachable_after_two Hp Hne Hw)
    as [H1 H2].
  exact (conj Hp (conj Hne (conj Hw (conj H1 H2)))).
Defined.

(** X19 through a registration of another user and a shutdown. *)
Lemma records_persist_witness :
  let ops := [OProxyFor true "bob@y/notes" "E2" 6; OClose (λ _, true)] in
  let w' := default newProxiedDirs (run ops (Runs.after Runs.one)) in
  run ops (Runs.after Runs.one) = Some w'
  ∧ is_Some (m (p (Runs.after Runs.one)) !! "alice@x")
  ∧ is_Some (m (p w') !! "alice@x").
Proof.
  intros ops w'.
  assert (Hr : run ops (Runs.after Runs.one) = Some w')
    by (vm_compute; reflexivity).
  assert (Hs : is_Some (m (p (Runs.after Runs.one)) !! "alice@x"))
    by (eexists; vm_compute; reflexivity).
  exact (conj Hr (conj Hs
           (records_persist (C := Sample.collaborators)
              (Runs.after Runs.one) w' ops "alice@x" Hr Hs))).
Defined.

(** X20 on the record of the registered user. *)
Lemma watch_is_rooted_at_the_user_witness :
  m (p (Runs.after Runs.one)) !! "alice@x" = Some Runs.aliceRecord
  ∧ user Runs.aliceRecord = "alice@x".
Proof.
  split; [reflexivity|].
  exact (proj1 (watch_is_rooted_at_the_user (Runs.after Runs.one) "alice@x"
                  Runs.aliceRecord reachable_after_one eq_refl)).
Defined.

(** X10 on two sessions that fail to bind. *)
Lemma watcher_binds_and_sleeps_witness :
  let r := watcher false "E1" (repeat (bindFails "connection refused") 2)
             (mkW Sample.alice Sample.cache0 []) in
  r.1 = Looping ∧ count isBind (wtrace r.2) = 2%nat.
Proof.
  intros r. split; [reflexivity|].
  exact (proj2 (watcher_binds_and_sleeps false "E1"
                  (repeat (bindFails "connection refused") 2)
                  (mkW Sample.alice Sample.cache0 [])) eq_refl).
Defined.

(** X13 on a stream that delivers the event at cursor 42 and is then closed. *)
Lemma watcher_resumes_at_last_cursor_witness :
  let es := [Sample.event "alice@x/foo" 42 false] in
  let ss := mkSession None None (map Received es ++ [StreamClosed]) in
  let s := mkW Sample.alice Sample.cache0 [] in
  established ss = true
  ∧ Forall (λ e, Error e = None) es
  ∧ watchOrders (wtrace (loop false "E1" [ss; mkSession None None []] s).2)
      = [5; 42].
Proof.
  intros es ss s.
  assert (Hes : Forall (λ e, Error e = None) es) by (repeat constructor).
  exact (conj eq_refl (conj Hes
           (watcher_resumes_at_last_cursor false "E1" ss (mkSession None None [])
              es s eq_refl eq_refl Hes eq_refl))).
Defined.

(** X14 on the message of a server that cannot read its log at order 5. *)
Lemma reset_iff_phrase_occurs_witness :
  let msg := "dir: cannot read log at order 5" in
  let s := mkW Sample.alice Sample.cache0 [] in
  (∃ a b, msg = a +:+ "cannot read log at order" +:+ b)
  ∧ order (wdir (afterFailure msg s)) = -1.
Proof.
  intros msg s.
  assert (H : ∃ a b, msg = a +:+ "cannot read log at order" +:+ b)
    by (exists "dir: ", " 5"; reflexivity).
  exact (conj H (proj1 (reset_iff_phrase_occurs msg s) H)).
Defined.

(** X15 on a session with a recorded and a dropped event. *)
Lemma watch_wipes_only_when_rereading_witness :
  let ss := mkSession None None
              [Received (Sample.event "alice@x/foo" 42 false);
               Received (Sample.event "alice@x/sub/a" 43 true)] in
  let s := mkW Sample.alice Sample.cache0 [] in
  order (wdir s) ≠ -1
  ∧ (∀ e, Received e ∈ selects ss -> Order e ≠ -1)
  ∧ wipes (wtrace (watch true "E1" ss s).2) = 0%nat.
Proof.
  intros ss s.
  assert (Ho : order (wdir s) ≠ -1) by discriminate.
  assert (Hall : ∀ e, Received e ∈ selects ss -> Order e ≠ -1).
  { intros e He. simpl in He.
    apply elem_of_cons in He as [[= ->]|He]; [discriminate|].
    apply elem_of_cons in He as [[= ->]|He]; [discriminate|].
    inversion He. }
  exact (conj Ho (conj Hall
           (proj1 (watch_wipes_only_when_rereading true "E1" ss s Ho Hall)))).
Defined.

(** X16 on a reread that delivers two changes of an access file. *)
Lemma reread_wipes_once_witness :
  let e0 := Sample.event "alice@x/Access" 9 false in
  let rs := [Received (Sample.event "alice@x/Access" 10 false)] in
  let ss := mkSession None None (Received e0 :: rs) in
  let s := mkW (set_order (-1) Sample.alice) Sample.cache0 [] in
  order (wdir s) = -1
  ∧ treatedAsRelevant e0 (subscribed "E1" s)
  ∧ wipes (wtrace (watch true "E1" ss s).2) = 1%nat.
Proof.
  intros e0 rs ss s.
  assert (Hr : treatedAsRelevant e0 (subscribed "E1" s))
    by (vm_compute; reflexivity).
  assert (Hall : ∀ e, Received e ∈ rs -> Order e ≠ -1).
  { intros e He. apply elem_of_cons in He as [[= ->]|He]; [discriminate|].
    inversion He. }
  exact (conj eq_refl (conj Hr
           (reread_wipes_once true "E1" ss e0 rs s eq_refl eq_refl eq_refl
              eq_refl Hr ltac:(discriminate) Hall))).
Defined.
